(** * Matchmaking and signaling relay: a shallow embedding of the server

    The server keeps three process-wide maps (waiting queues, active
    sessions, abuse scores), optionally mirrors the waiting queues in a
    Redis list store, and reacts to socket events.  Every handler is
    embedded as a function from the server state to the new state and the
    list of outbound effects it performs, in program order.

    Conventions of the embedding:
    - [join_queue], [leave_queue], [step] and [run] take a handler from its
      event to its end with nothing in between; the [await]s of the store
      calls, where other handlers may run, are cut out by [Task],
      [arrive], [resume] and [sched_run], and a property of more than one
      handler is stated on [sched_run];
    - whether a Redis call of the adapter succeeds or throws is an input of
      the event (an oracle); a call that throws leaves the Redis data as it
      was; the Redis lists are written by this server only, and may expire;
    - [socket.disconnect(true)] closes the socket at once: the transport
      drops it from [io.sockets.sockets] and runs its disconnect handler
      before the calling handler goes on;
    - socket identifiers, filter keys and session identifiers are strings;
    - abuse counts are natural numbers (the JavaScript doubles holding them
      are exact far beyond any count a run can reach);
    - [console.log] output is not part of the effects. *)

From Stdlib Require Import Ascii String ZArith.
From stdpp Require Import gmap strings list fin_maps pretty.

Set Warnings "-register-all".
Open Scope string_scope.
Open Scope list_scope.

(** ** JSON values carried by events *)

(** The values a client can send: what [JSON.parse] produces.  [JNum n] is
    the integer [n]; it stands for a JavaScript number, and [stringify]
    prints it as [JSON.stringify] does, as long as [n] is a safe integer
    (magnitude below 2^53, see [plain_numbers]).  An object is the list of
    its own properties in the order [Object.keys] enumerates them. *)
Inductive JsValue : Type :=
| JNull
| JBool (b : bool)
| JNum (n : Z)
| JStr (s : string)
| JArr (items : list JsValue)
| JObj (props : list (string * JsValue)).

(** A field of an event payload may be missing ([undefined]). *)
Definition Payload : Type := option JsValue.

(** JavaScript truthiness, as tested by [!filters] and [!to]. *)
Definition truthy (v : JsValue) : bool :=
  match v with
  | JNull => false
  | JBool b => b
  | JNum n => negb (Z.eqb n 0)
  | JStr s => negb (String.eqb s EmptyString)
  | JArr _ => true
  | JObj _ => true
  end.

(** [Object.keys(v).length] for a truthy [v]: primitives other than strings
    have no own enumerable keys. *)
Definition keys_length (v : JsValue) : nat :=
  match v with
  | JNull => 0
  | JBool _ => 0
  | JNum _ => 0
  | JStr s => String.length s
  | JArr items => length items
  | JObj props => length props
  end.

Definition dquote : ascii := "034"%char.
Definition backslash : ascii := "092"%char.

Definition hex_digit (n : nat) : ascii :=
  match n with
  | 0 => "0" | 1 => "1" | 2 => "2" | 3 => "3" | 4 => "4" | 5 => "5"
  | 6 => "6" | 7 => "7" | 8 => "8" | 9 => "9" | 10 => "a" | 11 => "b"
  | 12 => "c" | 13 => "d" | 14 => "e" | _ => "f"
  end%char.

(** The escape [JSON.stringify] writes for one character of a string. *)
Definition quote_char (c : ascii) : string :=
  let n := nat_of_ascii c in
  if decide (c = dquote) then String backslash (String dquote EmptyString)
  else if decide (c = backslash) then String backslash (String backslash EmptyString)
  else if decide (n = 8) then String backslash "b"
  else if decide (n = 9) then String backslash "t"
  else if decide (n = 10) then String backslash "n"
  else if decide (n = 12) then String backslash "f"
  else if decide (n = 13) then String backslash "r"
  else if decide (n < 32) then
    String backslash
      (String "u" (String "0" (String "0"
         (String (hex_digit (n / 16)) (String (hex_digit (n mod 16)) EmptyString)))))
  else String c EmptyString.

Fixpoint quote_body (s : string) : string :=
  match s with
  | EmptyString => EmptyString
  | String c rest => quote_char c +:+ quote_body rest
  end.

Definition quote (s : string) : string :=
  String dquote (quote_body s +:+ String dquote EmptyString).

Fixpoint join_with (sep : string) (parts : list string) : string :=
  match parts with
  | [] => EmptyString
  | [p] => p
  | p :: rest => p +:+ sep +:+ join_with sep rest
  end.

(** [JSON.stringify] on the values above. *)
Fixpoint stringify (v : JsValue) : string :=
  match v with
  | JNull => "null"
  | JBool true => "true"
  | JBool false => "false"
  | JNum n => pretty n
  | JStr s => quote s
  | JArr items => "[" +:+ join_with "," (map stringify items) +:+ "]"
  | JObj props =>
      "{" +:+
      join_with ","
        (map (fun kv => match kv with
                        | (k, x) => quote k +:+ ":" +:+ stringify x
                        end) props)
      +:+ "}"
  end.

(** ** makeFilterKey *)

Definition makeFilterKey (filters : Payload) : string :=
  match filters with
  | None => "all"
  | Some v =>
      if negb (truthy v) || Nat.eqb (keys_length v) 0 then "all"
      else stringify v
  end.

Example key_absent : makeFilterKey None = "all".
Proof. reflexivity. Qed.

Example key_two_props :
  makeFilterKey (Some (JObj [("lang", JStr "en"); ("age", JNum 30)]))
  = String "{" (String dquote ("lang" +:+ String dquote (":" +:+ String dquote ("en" +:+
      String dquote ("," +:+ String dquote ("age" +:+ String dquote ":30}")))))).
Proof. vm_compute. reflexivity. Qed.

(** ** Server state *)

Abbreviation Id := string (only parsing).

(** A value of [activeSessions]: [{ a: socket.id, b: peer }]. *)
Record Session : Type := mkSession { a : Id; b : Id }.

(** [socket.data] of a connected socket. *)
Record SocketData : Type := mkData {
  filterKey : option string;
  sessionId : option string
}.

(** The module-level state.  [redisClient] tells whether the imported
    client is non-null (it never changes after start-up); [redisLists] is
    the content of the Redis lists; [activeSessions] keeps the insertion
    order of the JavaScript [Map], which the disconnect handler iterates;
    [sockets] is [io.sockets.sockets]. *)
Record State : Type := mkState {
  redisClient : bool;
  redisLists : gmap string (list Id);
  inMemoryQueues : gmap string (list Id);
  activeSessions : list (string * Session);
  abuseScores : gmap Id nat;
  sockets : gmap Id SocketData
}.

Definition set_redis (r : gmap string (list Id)) (s : State) : State :=
  mkState (redisClient s) r (inMemoryQueues s) (activeSessions s)
          (abuseScores s) (sockets s).
Definition set_mem (q : gmap string (list Id)) (s : State) : State :=
  mkState (redisClient s) (redisLists s) q (activeSessions s)
          (abuseScores s) (sockets s).
Definition set_sessions (m : list (string * Session)) (s : State) : State :=
  mkState (redisClient s) (redisLists s) (inMemoryQueues s) m
          (abuseScores s) (sockets s).
Definition set_scores (c : gmap Id nat) (s : State) : State :=
  mkState (redisClient s) (redisLists s) (inMemoryQueues s) (activeSessions s)
          c (sockets s).
Definition set_sockets (k : gmap Id SocketData) (s : State) : State :=
  mkState (redisClient s) (redisLists s) (inMemoryQueues s) (activeSessions s)
          (abuseScores s) k.

Definition init (rc : bool) : State := mkState rc ∅ ∅ [] ∅ ∅.

(** *** A JavaScript [Map] with string keys, in insertion order *)

Section SMap.
Context {V : Type}.

Fixpoint smap_get (k : string) (m : list (string * V)) : option V :=
  match m with
  | [] => None
  | (k', v) :: rest => if decide (k' = k) then Some v else smap_get k rest
  end.

(** [set] overwrites in place, or appends a new entry. *)
Fixpoint smap_set (k : string) (v : V) (m : list (string * V)) : list (string * V) :=
  match m with
  | [] => [(k, v)]
  | (k', v') :: rest =>
      if decide (k' = k) then (k, v) :: rest else (k', v') :: smap_set k v rest
  end.

Definition smap_delete (k : string) (m : list (string * V)) : list (string * V) :=
  filter (fun e => e.1 ≠ k) m.
End SMap.

(** [m.get(k) || []] on a map of arrays; also the content of a Redis list,
    where a missing key and an empty list are the same thing. *)
Definition qget (m : gmap string (list Id)) (k : string) : list Id :=
  default [] (m !! k).

(** ** Queue store adapter *)

Definition redis_key (fk : string) : string := "waiting:" +:+ fk.

(** What the Redis part of [pushWaiting] did: both calls went through, or
    [rPush] threw, or [rPush] stored the entry and [expire] threw. *)
Inductive PushReply : Type := PushStored | RPushThrew | ExpireThrew.

Definition push_memory (fk : string) (socketId : Id) (s : State) : State :=
  set_mem (<[fk := qget (inMemoryQueues s) fk ++ [socketId]]> (inMemoryQueues s)) s.

Definition push_redis (fk : string) (socketId : Id) (s : State) : State :=
  set_redis (<[redis_key fk := qget (redisLists s) (redis_key fk) ++ [socketId]]>
               (redisLists s)) s.

Definition pushWaiting (reply : PushReply) (fk : string) (socketId : Id)
    (s : State) : State :=
  if redisClient s then
    match reply with
    | PushStored => push_redis fk socketId s
    | RPushThrew => push_memory fk socketId s
    | ExpireThrew => push_memory fk socketId (push_redis fk socketId s)
    end
  else push_memory fk socketId s.

(** [redis_ok] says whether [lPop] answered (otherwise it threw). *)
Definition popWaiting (redis_ok : bool) (fk : string) (s : State)
    : option Id * State :=
  if redisClient s && redis_ok then
    match qget (redisLists s) (redis_key fk) with
    | [] => (None, s)
    | x :: rest => (Some x, set_redis (<[redis_key fk := rest]> (redisLists s)) s)
    end
  else
    let arr := qget (inMemoryQueues s) fk in
    let val := match arr with
               | [] => None
               | x :: _ => if String.eqb x EmptyString then None else Some x
               end in
    (val, set_mem (<[fk := tail arr]> (inMemoryQueues s)) s).

Definition removeFromQueue (redis_ok : bool) (fk : string) (socketId : Id)
    (s : State) : State :=
  if redisClient s && redis_ok then
    set_redis (<[redis_key fk :=
                   filter (fun id => id ≠ socketId) (qget (redisLists s) (redis_key fk))]>
                 (redisLists s)) s
  else
    set_mem (<[fk := filter (fun id => id ≠ socketId) (qget (inMemoryQueues s) fk)]>
               (inMemoryQueues s)) s.

(** ** Outbound effects *)

Inductive OutEvent : Type :=
| queued
| left_queue
| matched (sid : string) (peerSocketId : Id)
| signal_out (from : Id) (data : Payload)
| relay_msg_out (from : Id) (text : Payload)
| kicked (reason : string)
| peer_left.

(** [socket.emit], [io.to(room).emit] and [socket.disconnect(true)]. *)
Inductive Effect : Type :=
| SocketEmit (socket : Id) (ev : OutEvent)
| RoomEmit (room : string) (ev : OutEvent)
| ForceDisconnect (socket : Id).

(** What the transport hands to clients for one effect: a socket is the
    only member of the room named by its identifier (the server never
    joins a socket to another room), so a room emit reaches that socket
    when it is connected and nobody otherwise. *)
Definition delivered (s : State) (e : Effect) : list (Id * OutEvent) :=
  match e with
  | SocketEmit id ev => [(id, ev)]
  | RoomEmit room ev =>
      match sockets s !! room with
      | Some _ => [(room, ev)]
      | None => []
      end
  | ForceDisconnect _ => []
  end.

(** ** Handlers *)

Definition set_filterKey (id : Id) (fk : string) (s : State) : State :=
  set_sockets (alter (fun d => mkData (Some fk) (sessionId d)) id (sockets s)) s.

Definition set_sessionId (id : Id) (sid : string) (s : State) : State :=
  set_sockets (alter (fun d => mkData (filterKey d) (Some sid)) id (sockets s)) s.

(** [peer && peer !== socket.id] *)
Definition usable_peer (peer : option Id) (id : Id) : option Id :=
  match peer with
  | Some p =>
      if negb (String.eqb p EmptyString) && negb (String.eqb p id) then Some p
      else None
  | None => None
  end.

(** The handler from its event to its end, with nothing run in between at
    its two [await]s ([arrive] and [resume] below cut it there).  [uuid] is
    the value [uuidv4()] returns in this call. *)
Definition join_queue (s : State) (id : Id) (filters : Payload) (uuid : string)
    (pop_ok : bool) (reply : PushReply) : State * list Effect :=
  let fk := makeFilterKey filters in
  let s1 := set_filterKey id fk s in
  let '(peer, s2) := popWaiting pop_ok fk s1 in
  match usable_peer peer id with
  | Some p =>
      let sid := "sess_" +:+ uuid in
      let s3 := set_sessions (smap_set sid (mkSession id p) (activeSessions s2)) s2 in
      let s4 := set_sessionId id sid s3 in
      let s5 := set_sessionId p sid s4 in
      (s5, [SocketEmit id (matched sid p); RoomEmit p (matched sid id)])
  | None =>
      (pushWaiting reply fk id s2, [SocketEmit id queued])
  end.

Definition falsy_key (fk : option string) : bool :=
  match fk with
  | None => true
  | Some k => String.eqb k EmptyString
  end.

(** The handler from its event to its end, with nothing run in between at
    its [await]. *)
Definition leave_queue (s : State) (id : Id) (rem_ok : bool) : State * list Effect :=
  let fk := sockets s !! id ≫= filterKey in
  match fk with
  | Some k =>
      if String.eqb k EmptyString then (s, [])
      else (removeFromQueue rem_ok k id s, [SocketEmit id left_queue])
  | None => (s, [])
  end.

Definition signal (s : State) (id : Id) (to : option string) (data : Payload)
    : State * list Effect :=
  if falsy_key to then (s, [])
  else (s, [RoomEmit (default EmptyString to) (signal_out id data)]).

Definition relay_msg (s : State) (id : Id) (to : option string) (text : Payload)
    : State * list Effect :=
  if falsy_key to then (s, [])
  else (s, [RoomEmit (default EmptyString to) (relay_msg_out id text)]).

Definition involves (id : Id) (pair : Session) : Prop := a pair = id ∨ b pair = id.

#[global] Instance involves_dec id pair : Decision (involves id pair).
Proof. unfold involves. apply _. Defined.

(** [pair.a === socket.id ? pair.b : pair.a] *)
Definition other_of (pair : Session) (id : Id) : Id :=
  if decide (a pair = id) then b pair else a pair.

(** The second loop of the disconnect handler, over the entries of
    [activeSessions]; [m] is the map the deletions act on. *)
Fixpoint drop_sessions (id : Id) (entries : list (string * Session))
    (m : list (string * Session)) : list (string * Session) * list Effect :=
  match entries with
  | [] => (m, [])
  | (sid, sess) :: rest =>
      if decide (involves id sess) then
        let '(m', out) := drop_sessions id rest (smap_delete sid m) in
        (m', RoomEmit (other_of sess id) peer_left :: out)
      else drop_sessions id rest m
  end.

Definition on_disconnect (s : State) (id : Id) : State * list Effect :=
  let s1 := set_mem (filter (fun x => x ≠ id) <$> inMemoryQueues s) s in
  let '(m, out) := drop_sessions id (activeSessions s1) (activeSessions s1) in
  (set_sessions m s1, out).

(** The transport removes a closing socket from [io.sockets.sockets] and
    then fires its ['disconnect'] event. *)
Definition close_socket (s : State) (id : Id) : State * list Effect :=
  on_disconnect (set_sockets (delete id (sockets s)) s) id.

Definition score (s : State) (id : Id) : nat := default 0 (abuseScores s !! id).

Definition report (s : State) (id : Id) (sid : string) (reason : Payload)
    : State * list Effect :=
  match smap_get sid (activeSessions s) with
  | None => (s, [])
  | Some sess =>
      let other := other_of sess id in
      let n := score s other + 1 in
      let s1 := set_scores (<[other := n]> (abuseScores s)) s in
      if Nat.ltb 3 n then
        match sockets s1 !! other with
        | Some _ =>
            let '(s2, out) := close_socket s1 other in
            (s2, SocketEmit other (kicked "abuse") :: ForceDisconnect other :: out)
        | None => (s1, [])
        end
      else (s1, [])
  end.

(** ** Events and runs *)

Inductive Event : Type :=
| Connect (id : Id)
| JoinQueue (id : Id) (filters : Payload) (uuid : string) (pop_ok : bool)
    (reply : PushReply)
| LeaveQueue (id : Id) (rem_ok : bool)
| Signal (id : Id) (to : option string) (data : Payload)
| RelayMsg (id : Id) (to : option string) (text : Payload)
| Report (id : Id) (sid : string) (reason : Payload)
| Disconnect (id : Id)
| KeyExpired (fk : string).

(** One event and the whole of its handler; [sched_step] below takes the
    handlers piece by piece. *)
Definition step (s : State) (ev : Event) : State * list Effect :=
  match ev with
  | Connect id => (set_sockets (<[id := mkData None None]> (sockets s)) s, [])
  | JoinQueue id filters uuid pop_ok reply => join_queue s id filters uuid pop_ok reply
  | LeaveQueue id rem_ok => leave_queue s id rem_ok
  | Signal id to data => signal s id to data
  | RelayMsg id to text => relay_msg s id to text
  | Report id sid reason => report s id sid reason
  | Disconnect id => close_socket s id
  | KeyExpired fk => (set_redis (delete (redis_key fk) (redisLists s)) s, [])
  end.

Fixpoint run (s : State) (evs : list Event) : State * list Effect :=
  match evs with
  | [] => (s, [])
  | ev :: rest =>
      let '(s1, out1) := step s ev in
      let '(s2, out2) := run s1 rest in
      (s2, out1 ++ out2)
  end.

Definition final (s : State) (evs : list Event) : State := (run s evs).1.

(** ** Handlers that give way at an [await] *)

(** [join_queue] and [leave_queue] are [async] functions: each of them
    stops at the [await] of a store call, and whatever else is ready runs
    before it goes on.  [join_queue], [leave_queue], [step] and [run] above
    are these handlers run without anything in between; the definitions
    below cut them at their [await]s.

    A [Task] is what a suspended handler still has to do:
    - [JoinPopping]: [socket.data.filterKey] is set, [popWaiting] has been
      called and has not yet touched a queue;
    - [JoinPopped]: [popWaiting] has answered [peer], the lines after the
      [await] have not yet run;
    - [JoinPushing]: [pushWaiting] has been called and still has to write
      (after an [rPush] whose [expire] threw: to the in-process array);
    - [JoinPushed]: [pushWaiting] is done, ['queued'] is not yet sent;
    - [LeaveRemoving]: [removeFromQueue] has been called and has not yet
      touched a queue;
    - [LeaveRemoved]: the removal is done, ['left_queue'] is not yet sent.

    Every store call acts on its list in one go, at some moment between the
    call and the resumption of the handler (without Redis: at the call);
    the other handlers have no [await] and run in one piece. *)
Inductive Task : Type :=
| JoinPopping (id : Id) (fk uuid : string) (pop_ok : bool) (reply : PushReply)
| JoinPopped (id : Id) (fk uuid : string) (reply : PushReply) (peer : option Id)
| JoinPushing (id : Id) (fk : string) (reply : PushReply)
| JoinPushed (id : Id)
| LeaveRemoving (id : Id) (fk : string) (rem_ok : bool)
| LeaveRemoved (id : Id).

(** The matched branch of [join_queue], which has no [await]. *)
Definition pair_up (s : State) (id p : Id) (uuid : string) : State * list Effect :=
  let sid := "sess_" +:+ uuid in
  let s3 := set_sessions (smap_set sid (mkSession id p) (activeSessions s)) s in
  let s4 := set_sessionId id sid s3 in
  let s5 := set_sessionId p sid s4 in
  (s5, [SocketEmit id (matched sid p); RoomEmit p (matched sid id)]).

(** The next piece of a suspended handler: the new state, what is left of
    the handler (nothing, or one task) and the effects of the piece. *)
Definition resume (t : Task) (s : State) : State * list Task * list Effect :=
  match t with
  | JoinPopping id fk uuid pop_ok reply =>
      let '(peer, s2) := popWaiting pop_ok fk s in
      (s2, [JoinPopped id fk uuid reply peer], [])
  | JoinPopped id fk uuid reply peer =>
      match usable_peer peer id with
      | Some p => let '(s5, out) := pair_up s id p uuid in (s5, [], out)
      | None => (s, [JoinPushing id fk reply], [])
      end
  | JoinPushing id fk reply =>
      if redisClient s then
        match reply with
        | PushStored => (push_redis fk id s, [JoinPushed id], [])
        | RPushThrew => (push_memory fk id s, [JoinPushed id], [])
        | ExpireThrew => (push_redis fk id s, [JoinPushing id fk RPushThrew], [])
        end
      else (push_memory fk id s, [JoinPushed id], [])
  | JoinPushed id => (s, [], [SocketEmit id queued])
  | LeaveRemoving id fk rem_ok => (removeFromQueue rem_ok fk id s, [LeaveRemoved id], [])
  | LeaveRemoved id => (s, [], [SocketEmit id left_queue])
  end.

(** The piece of a handler that runs when its event arrives: up to the
    first [await] for [join_queue] and [leave_queue], all of it for the
    others. *)
Definition arrive (s : State) (ev : Event) : State * list Task * list Effect :=
  match ev with
  | JoinQueue id filters uuid pop_ok reply =>
      let fk := makeFilterKey filters in
      (set_filterKey id fk s, [JoinPopping id fk uuid pop_ok reply], [])
  | LeaveQueue id rem_ok =>
      match sockets s !! id ≫= filterKey with
      | Some k =>
          if String.eqb k EmptyString then (s, [], [])
          else (s, [LeaveRemoving id k rem_ok], [])
      | None => (s, [], [])
      end
  | _ => let '(s', out) := step s ev in (s', [], out)
  end.

(** What the event loop does next: take an event that arrived, or go on
    with the [n]-th suspended handler. *)
Inductive Move : Type :=
| Arrive (ev : Event)
| Resume (n : nat).

(** The server with its suspended handlers, oldest first. *)
Definition sched_step (sys : State * list Task) (mv : Move)
    : (State * list Task) * list Effect :=
  let '(s, ts) := sys in
  match mv with
  | Arrive ev =>
      let '(s', new, out) := arrive s ev in ((s', ts ++ new), out)
  | Resume n =>
      match ts !! n with
      | Some t =>
          let '(s', new, out) := resume t s in
          ((s', take n ts ++ new ++ drop (S n) ts), out)
      | None => ((s, ts), [])
      end
  end.

Fixpoint sched_run (sys : State * list Task) (mvs : list Move)
    : (State * list Task) * list Effect :=
  match mvs with
  | [] => (sys, [])
  | mv :: rest =>
      let '(sys1, out1) := sched_step sys mv in
      let '(sys2, out2) := sched_run sys1 rest in
      (sys2, out1 ++ out2)
  end.

(** The schedule that handles the events one at a time: each handler is
    resumed until it is done (five pieces at most) before the next event is
    taken. *)
Definition one_at_a_time (evs : list Event) : list Move :=
  evs ≫= (fun ev => Arrive ev :: replicate 5 (Resume 0)).

(** * Vocabulary of the properties *)

(** A concrete run used below: [p] and [q] connect and are matched on the
    in-process store. *)
Definition matched_pq : list Event :=
  [Connect "p"; Connect "q";
   JoinQueue "p" None "u1" true PushStored;
   JoinQueue "q" None "u2" true PushStored].





(** [id] waits in the queue of [fk], in either store. *)
Definition waits (s : State) (id : Id) (fk : string) : Prop :=
  id ∈ qget (inMemoryQueues s) fk ∨ id ∈ qget (redisLists s) (redis_key fk).

Definition in_session (s : State) (id : Id) (sid : string) : Prop :=
  ∃ sess, (sid, sess) ∈ activeSessions s ∧ involves id sess.

(** The placement invariant of the data model: at most one queue, never a
    queue and a session, at most one session. *)
Definition exclusive (s : State) : Prop :=
  ∀ id,
    (∀ fk1 fk2, waits s id fk1 → waits s id fk2 → fk1 = fk2) ∧
    (∀ fk sid, waits s id fk → ¬ in_session s id sid) ∧
    (∀ sid1 sid2, in_session s id sid1 → in_session s id sid2 → sid1 = sid2).

(** A participant that is in no queue of either store and in no session. *)
Definition idle (s : State) (id : Id) : Prop :=
  (∀ k, id ∉ qget (inMemoryQueues s) k) ∧
  (∀ k, id ∉ qget (redisLists s) k) ∧
  (∀ e, e ∈ activeSessions s → ¬ involves id e.2).

(** A join_queue comes from an idle participant and its push is not cut
    between [rPush] and [expire]; any other event. *)
Definition polite_event (s : State) (ev : Event) : Prop :=
  match ev with
  | JoinQueue id _ _ _ reply => idle s id ∧ reply ≠ ExpireThrew
  | _ => True
  end.

(** The inductive strengthening, on the two stores and the session map. *)
Definition StoreOk (m : gmap string (list Id)) : Prop :=
  (∀ k, NoDup (qget m k)) ∧
  (∀ id k1 k2, id ∈ qget m k1 → id ∈ qget m k2 → k1 = k2).

Definition Apart (m1 m2 : gmap string (list Id)) : Prop :=
  ∀ id k1 k2, id ∈ qget m1 k1 → id ∈ qget m2 k2 → False.

Definition Unmatched (m : gmap string (list Id)) (ss : list (string * Session)) : Prop :=
  ∀ id k e, id ∈ qget m k → e ∈ ss → ¬ involves id e.2.

Definition OneSession (ss : list (string * Session)) : Prop :=
  ∀ id e1 e2, e1 ∈ ss → e2 ∈ ss → involves id e1.2 → involves id e2.2 → e1 = e2.

Definition Inv3 (m1 m2 : gmap string (list Id)) (ss : list (string * Session)) : Prop :=
  StoreOk m1 ∧ StoreOk m2 ∧ Apart m1 m2 ∧ Unmatched m1 ss ∧ Unmatched m2 ss ∧
  OneSession ss.

Definition Inv (s : State) : Prop :=
  Inv3 (inMemoryQueues s) (redisLists s) (activeSessions s).

(** [l'] is [l] with some entries taken out. *)
Definition shrinks (l' l : list Id) : Prop :=
  (NoDup l → NoDup l') ∧ (∀ x, x ∈ l' → x ∈ l).

Definition store_shrinks (m' m : gmap string (list Id)) : Prop :=
  ∀ k, shrinks (qget m' k) (qget m k).

(** A decision procedure for idleness, to check concrete runs. *)
Definition absentb (m : gmap string (list Id)) (id : Id) : bool :=
  bool_decide (map_Forall (fun _ l => id ∉ l) m).

Definition idleb (s : State) (id : Id) : bool :=
  absentb (inMemoryQueues s) id && absentb (redisLists s) id &&
  bool_decide (Forall (fun e => ¬ involves id e.2) (activeSessions s)).

(** The participants a suspended join_queue has in hand: its requester,
    until it is paired or pushed, and the candidate [popWaiting] gave it. *)
Definition held (t : Task) : list Id :=
  match t with
  | JoinPopping id _ _ _ _ => [id]
  | JoinPopped id _ _ _ peer =>
      id :: match usable_peer peer id with
            | Some p => [p]
            | None => []
            end
  | JoinPushing id _ _ => [id]
  | _ => []
  end.

Definition in_hand (ts : list Task) : list Id := ts ≫= held.

(** The push of a suspended join_queue will not be cut between [rPush] and
    [expire]. *)
Definition uncut (t : Task) : Prop :=
  match t with
  | JoinPopping _ _ _ _ reply => reply ≠ ExpireThrew
  | JoinPopped _ _ _ reply _ => reply ≠ ExpireThrew
  | JoinPushing _ _ reply => reply ≠ ExpireThrew
  | _ => True
  end.

(** join_queue arrives only from a participant that is idle and in the hand
    of no suspended join_queue, and no push is cut; everything else may
    arrive, and the suspended handlers may go on, in any order. *)
Definition considerate_move (sys : State * list Task) (mv : Move) : Prop :=
  match mv with
  | Arrive (JoinQueue id _ _ _ reply) =>
      idle sys.1 id ∧ (id ∉ in_hand sys.2) ∧ reply ≠ ExpireThrew
  | _ => True
  end.

Fixpoint considerate (sys : State * list Task) (mvs : list Move) : Prop :=
  match mvs with
  | [] => True
  | mv :: rest => considerate_move sys mv ∧ considerate (sched_step sys mv).1 rest
  end.

(** The strengthening of [Inv] to the server with its suspended handlers:
    whoever is in hand is idle and in one hand only. *)
Definition SInv (sys : State * list Task) : Prop :=
  Inv sys.1 ∧ NoDup (in_hand sys.2) ∧ (∀ x, x ∈ in_hand sys.2 → idle sys.1 x) ∧
  Forall uncut sys.2.

(** [p], [q] and [r] join over Redis; the handlers of [p] and [q] overlap,
    [r] is matched with [p], and [q] leaves while [r]'s join is suspended. *)
Definition considerate_schedule : list Move :=
  [Arrive (Connect "p"); Arrive (Connect "q"); Arrive (Connect "r");
   Arrive (JoinQueue "p" None "u1" true PushStored);
   Arrive (JoinQueue "q" None "u2" true PushStored);
   Resume 0; Resume 1; Resume 0; Resume 1; Resume 0; Resume 1; Resume 0;
   Resume 0;
   Arrive (JoinQueue "r" None "u3" true PushStored);
   Arrive (LeaveQueue "q" true);
   Resume 0; Resume 1; Resume 0; Resume 0;
   Arrive (Disconnect "p")].

(** The list an adapter call works on: the Redis list when the client is
    there and the call goes through, the in-process array otherwise. *)
Definition served_queue (s : State) (redis_ok : bool) (fk : string) : list Id :=
  if redisClient s && redis_ok then qget (redisLists s) (redis_key fk)
  else qget (inMemoryQueues s) fk.

(** Whether a later call with outcome [redis_ok] works on a list that a push
    with outcome [reply] wrote to. *)
Definition same_store (rc : bool) (reply : PushReply) (redis_ok : bool) : bool :=
  if rc then
    match reply with
    | PushStored => redis_ok
    | RPushThrew => negb redis_ok
    | ExpireThrew => true
    end
  else true.

(** Every join_queue of the run comes from a socket that is connected when
    the event is handled. *)
Fixpoint joins_connected (s : State) (evs : list Event) : Prop :=
  match evs with
  | [] => True
  | ev :: rest =>
      match ev with
      | JoinQueue id _ _ _ _ => is_Some (sockets s !! id)
      | _ => True
      end ∧ joins_connected (step s ev).1 rest
  end.

(** Everybody in an in-process queue or in a session is connected. *)
Definition all_live (s : State) : Prop :=
  (∀ k id, id ∈ qget (inMemoryQueues s) k → is_Some (sockets s !! id)) ∧
  (∀ e, e ∈ activeSessions s →
     is_Some (sockets s !! a e.2) ∧ is_Some (sockets s !! b e.2)).

(** The integers a JavaScript number holds exactly and [JSON.stringify]
    prints in plain decimal ([Number.isSafeInteger]). *)
Definition safe_integer (n : Z) : bool := Z.ltb (Z.abs n) (2 ^ 53).

(** Every number in [v] is a safe integer. *)
Fixpoint plain_numbers (v : JsValue) : bool :=
  match v with
  | JNum n => safe_integer n
  | JArr items => forallb plain_numbers items
  | JObj props => forallb (fun kv => plain_numbers kv.2) props
  | _ => true
  end.

Definition plain_filters (f : Payload) : bool :=
  match f with
  | Some v => plain_numbers v
  | None => true
  end.

(** Decimal digits, and how many of them a text begins with. *)
Definition is_digit (c : ascii) : bool :=
  Nat.leb 48 (nat_of_ascii c) && Nat.leb (nat_of_ascii c) 57.

Fixpoint digits_ahead (s : string) : nat :=
  match s with
  | EmptyString => 0
  | String c rest => if is_digit c then S (digits_ahead rest) else 0
  end.

Definition no_digit_ahead (s : string) : Prop :=
  match s with
  | EmptyString => True
  | String c _ => is_digit c = false
  end.

(** The text [JSON.stringify] writes for one property of an object. *)
Definition member_text (kv : string * JsValue) : string :=
  match kv with
  | (k, x) => quote k +:+ ":" +:+ stringify x
  end.

(** The text of [v], followed by something that does not go on with a digit,
    is the text of no other value. *)
Definition text_determines (v : JsValue) : Prop :=
  ∀ v' r1 r2, stringify v +:+ r1 = stringify v' +:+ r2 →
              no_digit_ahead r1 → no_digit_ahead r2 → v = v' ∧ r1 = r2.

(** The escapes of [quote_char], one case per branch. *)
Inductive QuoteCase (c : ascii) : string → Prop :=
| QcQuote : c = dquote → QuoteCase c (String backslash (String dquote EmptyString))
| QcBackslash :
    c = backslash → QuoteCase c (String backslash (String backslash EmptyString))
| QcNamed (l : ascii) :
    (nat_of_ascii c, l) ∈ [(8, "b"); (9, "t"); (10, "n"); (12, "f"); (13, "r")]%char →
    QuoteCase c (String backslash (String l EmptyString))
| QcHex (hi lo : nat) :
    (hi < 16)%nat → (lo < 16)%nat → nat_of_ascii c = 16 * hi + lo →
    QuoteCase c
      (String backslash (String "u" (String "0" (String "0"
         (String (hex_digit hi) (String (hex_digit lo) EmptyString))))))
| QcPlain : c ≠ dquote → c ≠ backslash → QuoteCase c (String c EmptyString).

(** Induction on values, through the lists of arrays and objects. *)
Section JsValueInduction.
Context (P : JsValue → Prop).
Context (Hnull : P JNull) (Hbool : ∀ b, P (JBool b)) (Hnum : ∀ n, P (JNum n))
        (Hstr : ∀ s, P (JStr s))
        (Harr : ∀ items, Forall P items → P (JArr items))
        (Hobj : ∀ props, Forall (fun kv => P kv.2) props → P (JObj props)).

Fixpoint JsValue_nested_ind (v : JsValue) : P v :=
  match v with
  | JNull => Hnull
  | JBool b => Hbool b
  | JNum n => Hnum n
  | JStr s => Hstr s
  | JArr items =>
      Harr items
        ((fix go (l : list JsValue) : Forall P l :=
            match l with
            | [] => @List.Forall_nil _ P
            | x :: r => @List.Forall_cons _ P x r (JsValue_nested_ind x) (go r)
            end) items)
  | JObj props =>
      Hobj props
        ((fix go (l : list (string * JsValue)) : Forall (fun kv => P kv.2) l :=
            match l with
            | [] => @List.Forall_nil _ (fun kv => P kv.2)
            | kv :: r =>
                @List.Forall_cons _ (fun kv => P kv.2) kv r
                  (match kv as p return P p.2 with
                   | (k, x) => JsValue_nested_ind x
                   end) (go r)
            end) props)
  end.
End JsValueInduction.

(** * Properties *)

(** ** Filter keys *)

(** C6, as stated, fails: two filter objects holding the same
    attribute-value pairs in different orders get different keys, because
    [JSON.stringify] writes the properties in enumeration order. *)
Lemma makeFilterKey_order_sensitive :
  ¬ (∀ ps qs : list (string * JsValue),
       ps ≡ₚ qs →
       makeFilterKey (Some (JObj ps)) = makeFilterKey (Some (JObj qs))).
Proof.
  intros H.
  specialize (H [("a", JNum 1); ("b", JNum 2)] [("b", JNum 2); ("a", JNum 1)]
                (perm_swap _ _ _)).
  vm_compute in H. discriminate H.
Qed.

(** C6 (amended): the key is a function of the filter value with its
    properties in enumeration order: equal property sequences give equal
    keys; the absent filter, [null] and the empty object all map to the
    reserved key ["all"], and no object with a property does. *)
Theorem makeFilterKey_ordered :
  makeFilterKey None = "all" ∧
  makeFilterKey (Some JNull) = "all" ∧
  makeFilterKey (Some (JObj [])) = "all" ∧
  (∀ ps qs : list (string * JsValue),
     ps = qs → makeFilterKey (Some (JObj ps)) = makeFilterKey (Some (JObj qs))) ∧
  (∀ p ps, makeFilterKey (Some (JObj (p :: ps))) ≠ "all").
Proof.
  repeat split; try reflexivity.
  - intros ps qs ->. reflexivity.
  - intros p ps. cbn. discriminate.
Qed.

Lemma makeFilterKey_ordered_witness :
  [("lang", JStr "en")] = [("lang", JStr "en")] ∧
  makeFilterKey (Some (JObj [("lang", JStr "en")]))
  = makeFilterKey (Some (JObj [("lang", JStr "en")])).
Proof.
  split; [reflexivity|].
  apply (proj1 (proj2 (proj2 (proj2 makeFilterKey_ordered)))). reflexivity.
Defined.

(** ** The session map *)

Section SMapFacts.
Context {V : Type}.
Implicit Types (m : list (string * V)) (k : string).

Lemma smap_get_None k m : smap_get k m = None ↔ k ∉ m.*1.
Proof.
  induction m as [|[k' v] m IH]; simpl.
  - split; [intros _; apply not_elem_of_nil | done].
  - rewrite not_elem_of_cons. destruct (decide (k' = k)) as [->|Hne].
    + split; [discriminate | intros [? _]; done].
    + rewrite IH. split; [intros ?; split; [congruence | done] | intros [_ ?]; done].
Qed.

Lemma smap_get_Some_elem k v m : smap_get k m = Some v → (k, v) ∈ m.
Proof.
  induction m as [|[k' v'] m IH]; simpl; [discriminate|].
  destruct (decide (k' = k)) as [->|Hne].
  - intros [= ->]. apply elem_of_cons. by left.
  - intros H. apply elem_of_cons. right. apply IH, H.
Qed.

Lemma smap_get_delete k m : smap_get k (smap_delete k m) = None.
Proof.
  apply smap_get_None. unfold smap_delete. intros Hin.
  apply list_elem_of_fmap in Hin as [[k' v] [-> Hin]].
  apply list_elem_of_filter in Hin as [Hne _]. simpl in Hne. done.
Qed.

Lemma smap_get_sub k m m' :
  (∀ e, e ∈ m' → e ∈ m) → smap_get k m = None → smap_get k m' = None.
Proof.
  rewrite !smap_get_None. intros Hsub Hk Hin.
  apply Hk. apply list_elem_of_fmap in Hin as [e [-> Hin]].
  apply list_elem_of_fmap_2, Hsub, Hin.
Qed.

Lemma smap_delete_sub k m e : e ∈ smap_delete k m → e ∈ m.
Proof. unfold smap_delete. rewrite list_elem_of_filter. tauto. Qed.

(** Entries of the map after [set]: the new binding or an old entry. *)
Lemma smap_set_elem k v m e : e ∈ smap_set k v m → e = (k, v) ∨ e ∈ m.
Proof.
  induction m as [|[k' v'] m IH]; simpl.
  - intros ->%list_elem_of_singleton. by left.
  - destruct (decide (k' = k)) as [->|Hne].
    + rewrite !elem_of_cons. tauto.
    + rewrite !elem_of_cons. intros [->|Hin]; [tauto|].
      destruct (IH Hin); tauto.
Qed.

Lemma smap_get_set k v m : smap_get k (smap_set k v m) = Some v.
Proof.
  induction m as [|[k' v'] m IH]; simpl.
  - by rewrite decide_True.
  - destruct (decide (k' = k)) as [->|Hne]; simpl.
    + by rewrite decide_True.
    + by rewrite decide_False.
Qed.
End SMapFacts.

(** ** The disconnect handler *)

Lemma drop_sessions_sub id es m e :
  e ∈ (drop_sessions id es m).1 → e ∈ m.
Proof.
  revert m. induction es as [|[sid sess] es IH]; intros m; simpl; [done|].
  destruct (decide (involves id sess)) as [Hin|Hout].
  - specialize (IH (smap_delete sid m)).
    destruct (drop_sessions id es (smap_delete sid m)) as [m' out]; simpl in *.
    intros He. eapply smap_delete_sub, IH, He.
  - apply IH.
Qed.

Lemma drop_sessions_effects id es m :
  (drop_sessions id es m).2
  = (fun e => RoomEmit (other_of e.2 id) peer_left)
      <$> filter (fun e => involves id e.2) es.
Proof.
  revert m. induction es as [|[sid sess] es IH]; intros m; simpl; [done|].
  rewrite filter_cons. simpl.
  destruct (decide (involves id sess)) as [Hin|Hout].
  - specialize (IH (smap_delete sid m)).
    destruct (drop_sessions id es (smap_delete sid m)) as [m' out]; simpl in *.
    by rewrite IH.
  - apply IH.
Qed.

Lemma drop_sessions_gone id es m sid sess :
  (sid, sess) ∈ es → involves id sess →
  smap_get sid (drop_sessions id es m).1 = None.
Proof.
  revert m. induction es as [|[sid' sess'] es IH]; intros m Hel Hinv; simpl.
  - by apply elem_of_nil in Hel.
  - destruct (decide (involves id sess')) as [Hin|Hout].
    + apply elem_of_cons in Hel as [[= <- <-]|Hel].
      * pose proof (drop_sessions_sub id es (smap_delete sid m)) as Hsub.
        destruct (drop_sessions id es (smap_delete sid m)) as [m' out]; simpl in *.
        eapply smap_get_sub; [exact Hsub | apply smap_get_delete].
      * specialize (IH (smap_delete sid' m) Hel Hinv).
        by destruct (drop_sessions id es (smap_delete sid' m)).
    + apply elem_of_cons in Hel as [[= <- <-]|Hel]; [done|].
      by apply IH.
Qed.

Lemma drop_sessions_keeps id es m e :
  e ∈ m → (∀ e', e' ∈ es → involves id e'.2 → e'.1 ≠ e.1) →
  e ∈ (drop_sessions id es m).1.
Proof.
  revert m. induction es as [|[sid sess] es IH]; intros m Hin Hkeys; simpl; [done|].
  assert (Hrest : ∀ e', e' ∈ es → involves id e'.2 → e'.1 ≠ e.1).
  { intros e' He'. apply Hkeys, elem_of_cons. by right. }
  destruct (decide (involves id sess)) as [Hinv|Hout].
  - assert (Hne : e.1 ≠ sid).
    { intros Heq. apply (Hkeys (sid, sess)); [apply elem_of_cons; by left|done..]. }
    assert (Hin' : e ∈ smap_delete sid m).
    { unfold smap_delete. by apply list_elem_of_filter. }
    specialize (IH (smap_delete sid m) Hin' Hrest).
    by destruct (drop_sessions id es (smap_delete sid m)).
  - by apply IH.
Qed.

Lemma drop_sessions_clean id m e :
  e ∈ (drop_sessions id m m).1 → ¬ involves id e.2.
Proof.
  intros He Hinv. destruct e as [sid sess]; simpl in *.
  pose proof (drop_sessions_sub _ _ _ _ He) as Hm.
  pose proof (drop_sessions_gone id m m sid sess Hm Hinv) as Hnone.
  apply smap_get_None in Hnone. apply Hnone.
  by apply (list_elem_of_fmap_2 fst) in He.
Qed.

Lemma on_disconnect_eq s id :
  on_disconnect s id
  = (set_sessions (drop_sessions id (activeSessions s) (activeSessions s)).1
       (set_mem (filter (fun x => x ≠ id) <$> inMemoryQueues s) s),
     (drop_sessions id (activeSessions s) (activeSessions s)).2).
Proof.
  unfold on_disconnect. simpl.
  by destruct (drop_sessions id (activeSessions s) (activeSessions s)).
Qed.

Lemma close_socket_eq s id :
  close_socket s id
  = (set_sessions (drop_sessions id (activeSessions s) (activeSessions s)).1
       (set_mem (filter (fun x => x ≠ id) <$> inMemoryQueues s)
          (set_sockets (delete id (sockets s)) s)),
     (drop_sessions id (activeSessions s) (activeSessions s)).2).
Proof. unfold close_socket. by rewrite on_disconnect_eq. Qed.

Lemma qget_fmap_filter (P : Id → Prop) `{!∀ x, Decision (P x)}
    (m : gmap string (list Id)) k :
  qget (filter P <$> m) k = filter P (qget m k).
Proof. unfold qget. rewrite lookup_fmap. by destruct (m !! k). Qed.

Lemma qget_insert (m : gmap string (list Id)) k k' l :
  qget (<[k := l]> m) k' = if decide (k = k') then l else qget m k'.
Proof.
  unfold qget. rewrite lookup_insert. by destruct (decide (k = k')).
Qed.

Lemma qget_empty k : qget ∅ k = [].
Proof. unfold qget. by rewrite lookup_empty. Qed.

(** C3, as stated, fails: after [q] reported [p] once and [p]
    disconnected, [p] still has its entry in the abuse-score map. *)
Lemma disconnect_score_survives :
  ¬ (∀ (evs : list Event) (id : Id),
       abuseScores (final (init false) (evs ++ [Disconnect id])) !! id = None).
Proof.
  intros H.
  specialize (H (matched_pq ++ [Report "q" "sess_u2" None]) "p").
  vm_compute in H. discriminate H.
Qed.

(** C3 (amended): handling a disconnect leaves the abuse-score map as it
    was; the entry of the disconnecting participant is kept. *)
Theorem disconnect_keeps_scores (s : State) (id : Id) :
  abuseScores (step s (Disconnect id)).1 = abuseScores s ∧
  abuseScores (on_disconnect s id).1 = abuseScores s.
Proof.
  split; simpl; [rewrite close_socket_eq | rewrite on_disconnect_eq]; reflexivity.
Qed.

(** ** Reports *)

(** C7: a report naming a session that is not in [activeSessions] changes
    nothing and emits nothing. *)
Theorem report_unknown_session (s : State) (id : Id) (sid : string) (reason : Payload) :
  smap_get sid (activeSessions s) = None →
  report s id sid reason = (s, []) ∧
  step s (Report id sid reason) = (s, []).
Proof. intros H. simpl. unfold report. rewrite H. done. Qed.

Lemma report_unknown_session_witness :
  smap_get "sess_gone" (activeSessions (final (init false) matched_pq)) = None ∧
  report (final (init false) matched_pq) "q" "sess_gone" (Some (JStr "spam"))
  = (final (init false) matched_pq, []).
Proof.
  split; [reflexivity|].
  apply (report_unknown_session (final (init false) matched_pq) "q" "sess_gone").
  reflexivity.
Defined.

Lemma report_known s id sid reason sess :
  smap_get sid (activeSessions s) = Some sess →
  let other := other_of sess id in
  let s1 := set_scores (<[other := score s other + 1]> (abuseScores s)) s in
  report s id sid reason
  = if decide (3 < score s other + 1 ∧ is_Some (sockets s !! other))
    then ((close_socket s1 other).1,
          SocketEmit other (kicked "abuse") :: ForceDisconnect other
            :: (close_socket s1 other).2)
    else (s1, []).
Proof.
  intros H. simpl. unfold report. rewrite H. simpl.
  destruct (Nat.ltb_spec 3 (score s (other_of sess id) + 1)) as [Hlt|Hge].
  - destruct (sockets s !! other_of sess id) as [d|] eqn:Hs.
    + rewrite decide_True by (split; [lia | by eexists]).
      by destruct (close_socket _ _).
    + rewrite decide_False; [done|]. intros [_ [? ?]]. done.
  - rewrite decide_False; [done|]. intros [? _]. lia.
Qed.

Lemma score_after_report s id sid reason sess :
  smap_get sid (activeSessions s) = Some sess →
  abuseScores (report s id sid reason).1
  = <[other_of sess id := score s (other_of sess id) + 1]> (abuseScores s).
Proof.
  intros H. rewrite (report_known _ _ _ _ _ H). simpl.
  destruct (decide _); simpl; [|done].
  by rewrite close_socket_eq.
Qed.

(** C10: a report on an existing session by a participant that occupies
    neither slot is processed all the same: it adds one to the abuse count
    of the participant in slot [a], and ejects that participant when the
    count passes 3 while it is connected. *)
Theorem report_by_outsider (s : State) (id : Id) (sid : string) (reason : Payload)
    (sess : Session) :
  smap_get sid (activeSessions s) = Some sess →
  id ≠ a sess → id ≠ b sess →
  score (report s id sid reason).1 (a sess) = score s (a sess) + 1 ∧
  (3 < score s (a sess) + 1 → is_Some (sockets s !! a sess) →
   SocketEmit (a sess) (kicked "abuse") ∈ (report s id sid reason).2 ∧
   ForceDisconnect (a sess) ∈ (report s id sid reason).2).
Proof.
  intros Hget Ha _.
  assert (Ho : other_of sess id = a sess).
  { unfold other_of. by rewrite decide_False. }
  split.
  - unfold score at 1. rewrite (score_after_report _ _ _ _ _ Hget), Ho.
    by rewrite lookup_insert_eq.
  - intros Hlt Hconn. rewrite (report_known _ _ _ _ _ Hget). simpl. rewrite Ho.
    rewrite decide_True by done. simpl.
    split; [apply elem_of_cons; by left|].
    apply elem_of_cons; right. apply elem_of_cons; by left.
Qed.

Lemma report_by_outsider_witness :
  score (report (final (init false) (matched_pq ++ [Connect "r"]))
           "r" "sess_u2" None).1 "q" = 1.
Proof.
  apply (report_by_outsider (final (init false) (matched_pq ++ [Connect "r"]))
           "r" "sess_u2" None (mkSession "q" "p"));
    [reflexivity | discriminate | discriminate].
Defined.

(** ** Relay *)

(** C9: a [signal] or [relay_msg] event with a named recipient leaves the
    state alone and emits, to the room of the recipient, the payload it
    received tagged with the identifier of the sending socket, whatever
    the payload is; the transport hands it to the recipient when that
    socket is connected and to nobody otherwise. *)
Theorem relay_verbatim (s : State) (id to : Id) (payload : Payload) :
  to ≠ EmptyString →
  signal s id (Some to) payload = (s, [RoomEmit to (signal_out id payload)]) ∧
  relay_msg s id (Some to) payload = (s, [RoomEmit to (relay_msg_out id payload)]) ∧
  (∀ ev, sockets s !! to = None → delivered s (RoomEmit to ev) = []) ∧
  (∀ ev, is_Some (sockets s !! to) → delivered s (RoomEmit to ev) = [(to, ev)]).
Proof.
  intros Hto. apply String.eqb_neq in Hto.
  unfold signal, relay_msg, delivered. simpl. rewrite Hto.
  repeat split.
  - intros ev ->. done.
  - intros ev [d ->]. done.
Qed.

Lemma relay_verbatim_witness :
  signal (final (init false) matched_pq) "p" (Some "q") (Some (JStr "offer"))
  = (final (init false) matched_pq, [RoomEmit "q" (signal_out "p" (Some (JStr "offer")))]).
Proof.
  apply (relay_verbatim (final (init false) matched_pq) "p" "q" (Some (JStr "offer"))).
  discriminate.
Defined.

(** ** Joining *)

Lemma usable_peer_Some peer id p :
  usable_peer peer id = Some p → peer = Some p ∧ p ≠ EmptyString ∧ p ≠ id.
Proof.
  unfold usable_peer. destruct peer as [x|]; [|discriminate].
  destruct (String.eqb_spec x EmptyString); simpl; [discriminate|].
  destruct (String.eqb_spec x id); simpl; [discriminate|].
  intros [= <-]. done.
Qed.

Lemma usable_peer_self id : usable_peer (Some id) id = None.
Proof.
  unfold usable_peer. rewrite (String.eqb_refl id), andb_false_r. done.
Qed.

Lemma join_queue_eq s id filters uuid pop_ok reply :
  let fk := makeFilterKey filters in
  let sid := "sess_" +:+ uuid in
  let pr := popWaiting pop_ok fk (set_filterKey id fk s) in
  join_queue s id filters uuid pop_ok reply
  = match usable_peer pr.1 id with
    | Some p =>
        (set_sessionId p sid (set_sessionId id sid
           (set_sessions (smap_set sid (mkSession id p) (activeSessions pr.2)) pr.2)),
         [SocketEmit id (matched sid p); RoomEmit p (matched sid id)])
    | None => (pushWaiting reply fk id pr.2, [SocketEmit id queued])
    end.
Proof.
  simpl. unfold join_queue.
  by destruct (popWaiting pop_ok (makeFilterKey filters) _) as [peer s2].
Qed.

Lemma popWaiting_frame ok fk s :
  activeSessions (popWaiting ok fk s).2 = activeSessions s ∧
  abuseScores (popWaiting ok fk s).2 = abuseScores s ∧
  sockets (popWaiting ok fk s).2 = sockets s ∧
  redisClient (popWaiting ok fk s).2 = redisClient s.
Proof.
  unfold popWaiting. destruct (redisClient s && ok); [|done].
  by destruct (qget (redisLists s) (redis_key fk)).
Qed.

Lemma pushWaiting_frame reply fk id s :
  activeSessions (pushWaiting reply fk id s) = activeSessions s ∧
  abuseScores (pushWaiting reply fk id s) = abuseScores s ∧
  sockets (pushWaiting reply fk id s) = sockets s ∧
  redisClient (pushWaiting reply fk id s) = redisClient s.
Proof.
  unfold pushWaiting.
  destruct (redisClient s) eqn:E; [destruct reply|]; simpl; rewrite ?E; done.
Qed.




(** The list standing for [activeSessions] is a map: along every run its
    keys stay pairwise distinct, so iterating over the entries while
    deleting the current one, as the disconnect handler does, visits each
    entry of the map once. *)
Lemma smap_set_keys k (v : Session) m : NoDup m.*1 → NoDup (smap_set k v m).*1.
Proof.
  induction m as [|[k' v'] m IH]; simpl.
  - intros _. apply NoDup_singleton.
  - intros [Hk' Hm]%NoDup_cons. destruct (decide (k' = k)) as [->|Hne]; simpl.
    + by apply NoDup_cons.
    + apply NoDup_cons. split; [|by apply IH].
      intros [e [-> [->|He]%smap_set_elem]]%list_elem_of_fmap; [done|].
      apply Hk'. by apply (list_elem_of_fmap_2 fst) in He.
Qed.

Lemma drop_sessions_sublist id es m : (drop_sessions id es m).1 `sublist_of` m.
Proof.
  revert m. induction es as [|[sid sess] es IH]; intros m; simpl; [done|].
  destruct (decide (involves id sess)); [|apply IH].
  specialize (IH (smap_delete sid m)).
  destruct (drop_sessions id es (smap_delete sid m)) as [m' out]; simpl in *.
  etrans; [exact IH|]. apply sublist_filter.
Qed.

Lemma close_socket_keys s id :
  NoDup (activeSessions s).*1 → NoDup (activeSessions (close_socket s id).1).*1.
Proof.
  intros Hs. rewrite close_socket_eq. simpl.
  eapply sublist_NoDup; [exact Hs|]. apply fmap_sublist, drop_sessions_sublist.
Qed.

Lemma step_session_keys s ev :
  NoDup (activeSessions s).*1 → NoDup (activeSessions (step s ev).1).*1.
Proof.
  intros Hs.
  destruct ev as [id|id filters uuid pop_ok reply|id ok|id to d|id to d|id sid r|id|fk];
    simpl; try done.
  - rewrite join_queue_eq. simpl.
    destruct (usable_peer _ id) as [p|]; simpl.
    + apply smap_set_keys. by rewrite (proj1 (popWaiting_frame _ _ _)).
    + by rewrite (proj1 (pushWaiting_frame _ _ _ _)), (proj1 (popWaiting_frame _ _ _)).
  - unfold leave_queue. destruct (sockets s !! id ≫= filterKey) as [k|]; [|done].
    destruct (String.eqb k EmptyString); simpl; [done|].
    unfold removeFromQueue. by destruct (redisClient s && ok).
  - unfold signal. by destruct (falsy_key to).
  - unfold relay_msg. by destruct (falsy_key to).
  - destruct (smap_get sid (activeSessions s)) as [sess|] eqn:Hget.
    + rewrite (report_known _ _ _ _ _ Hget). simpl.
      destruct (decide _); simpl; [|done]. by apply close_socket_keys.
    + unfold report. by rewrite Hget.
  - by apply close_socket_keys.
Qed.

Lemma run_session_keys rc evs : NoDup (activeSessions (final (init rc) evs)).*1.
Proof.
  assert (H : ∀ s, NoDup (activeSessions s).*1 → NoDup (activeSessions (final s evs)).*1).
  { unfold final. induction evs as [|ev evs IH]; intros s Hs; simpl; [done|].
    pose proof (step_session_keys s ev Hs) as H1.
    destruct (step s ev) as [s1 out1]. specialize (IH s1 H1).
    by destruct (run s1 evs) as [s2 out2]. }
  apply H. apply NoDup_nil_2.
Qed.



(** ** Leaving a queue *)

Lemma filter_ne_absent (id : Id) (l : list Id) :
  id ∉ l → filter (fun x => x ≠ id) l = l.
Proof.
  induction l as [|x l IH]; [done|].
  rewrite not_elem_of_cons. intros [Hne Hl].
  rewrite filter_cons, decide_True by done. by rewrite IH.
Qed.

Lemma filter_none {A} (P : A → Prop) `{!∀ x, Decision (P x)} (l : list A) :
  (∀ x, x ∈ l → ¬ P x) → filter P l = [].
Proof.
  induction l as [|x l IH]; [done|]. intros Hall.
  rewrite filter_cons, decide_False by (apply Hall, elem_of_cons; by left).
  apply IH. intros y Hy. apply Hall, elem_of_cons. by right.
Qed.

Lemma filter_ne_gone (id : Id) (l : list Id) : id ∉ filter (fun x => x ≠ id) l.
Proof. rewrite list_elem_of_filter. tauto. Qed.

Lemma filter_ne_twice (id : Id) (l : list Id) :
  filter (fun x => x ≠ id) (filter (fun x => x ≠ id) l) = filter (fun x => x ≠ id) l.
Proof. apply filter_ne_absent, filter_ne_gone. Qed.

Lemma removeFromQueue_twice ok fk id s :
  removeFromQueue ok fk id (removeFromQueue ok fk id s) = removeFromQueue ok fk id s.
Proof.
  unfold removeFromQueue.
  destruct (redisClient s && ok) eqn:E; simpl; rewrite E; unfold set_redis, set_mem;
    simpl; f_equal;
    by rewrite qget_insert, decide_True, filter_ne_twice, insert_insert_eq by done.
Qed.

(** C8, as stated, fails: after [p] joined and left, it is in no queue,
    yet a further [leave_queue] is not a no-op: it emits [left_queue]
    again. *)
Lemma leave_twice_emits :
  ¬ (∀ (evs : list Event) (id : Id) (ok : bool),
       let s := final (init false) evs in
       (∀ k, id ∉ qget (inMemoryQueues s) k) →
       (∀ k, id ∉ qget (redisLists s) k) →
       (leave_queue s id ok).2 = []).
Proof.
  intros H.
  specialize (H [Connect "p"; JoinQueue "p" None "u1" true PushStored;
                 LeaveQueue "p" true] "p" true).
  simpl in H.
  assert (Hmem : ∀ k, "p" ∉ qget (inMemoryQueues (final (init false)
             [Connect "p"; JoinQueue "p" None "u1" true PushStored;
              LeaveQueue "p" true])) k).
  { intros k.
    assert (E : inMemoryQueues (final (init false)
               [Connect "p"; JoinQueue "p" None "u1" true PushStored;
                LeaveQueue "p" true]) = <["all" := []]> ∅)
      by (vm_compute; reflexivity).
    rewrite E, qget_insert.
    destruct (decide ("all" = k)); [|rewrite qget_empty]; apply not_elem_of_nil. }
  assert (Hred : ∀ k, "p" ∉ qget (redisLists (final (init false)
             [Connect "p"; JoinQueue "p" None "u1" true PushStored;
              LeaveQueue "p" true])) k).
  { intros k.
    assert (E : redisLists (final (init false)
               [Connect "p"; JoinQueue "p" None "u1" true PushStored;
                LeaveQueue "p" true]) = ∅)
      by (vm_compute; reflexivity).
    rewrite E, qget_empty. apply not_elem_of_nil. }
  specialize (H Hmem Hred). vm_compute in H. discriminate H.
Qed.

(** C8 (amended): [leave_queue] does nothing only when no filter key is
    recorded for the socket; with a recorded key it removes the socket
    from the queue of that key in the store serving the call and emits
    [left_queue], whether or not the socket was waiting.  The removal
    filters one list and touches nothing else, is idempotent, and leaves
    the content of every queue as it was when the identifier is absent. *)
Theorem leave_queue_removes (s : State) (id : Id) (rem_ok : bool) :
  (falsy_key (sockets s !! id ≫= filterKey) = true →
   leave_queue s id rem_ok = (s, [])) ∧
  (∀ fk, sockets s !! id ≫= filterKey = Some fk → fk ≠ EmptyString →
     leave_queue s id rem_ok
     = (removeFromQueue rem_ok fk id s, [SocketEmit id left_queue])) ∧
  (∀ fk, let s' := removeFromQueue rem_ok fk id s in
     (if redisClient s && rem_ok then
        inMemoryQueues s' = inMemoryQueues s ∧
        ∀ k, qget (redisLists s') k
             = if decide (redis_key fk = k)
               then filter (fun x => x ≠ id) (qget (redisLists s) k)
               else qget (redisLists s) k
      else
        redisLists s' = redisLists s ∧
        ∀ k, qget (inMemoryQueues s') k
             = if decide (fk = k)
               then filter (fun x => x ≠ id) (qget (inMemoryQueues s) k)
               else qget (inMemoryQueues s) k) ∧
     removeFromQueue rem_ok fk id s' = s' ∧
     (id ∉ qget (inMemoryQueues s) fk → id ∉ qget (redisLists s) (redis_key fk) →
      ∀ k, qget (inMemoryQueues s') k = qget (inMemoryQueues s) k ∧
           qget (redisLists s') k = qget (redisLists s) k)).
Proof.
  split; [|split].
  - unfold leave_queue, falsy_key.
    destruct (sockets s !! id ≫= filterKey) as [k|]; [|done]. by intros ->.
  - intros fk Hfk Hne. unfold leave_queue. rewrite Hfk.
    apply String.eqb_neq in Hne. by rewrite Hne.
  - intros fk s'. split; [|split].
    + subst s'. unfold removeFromQueue.
      destruct (redisClient s && rem_ok); simpl; (split; [done|]);
        intros k; rewrite qget_insert; by destruct (decide _) as [->|].
    + apply removeFromQueue_twice.
    + intros Hm Hr k. subst s'. unfold removeFromQueue.
      destruct (redisClient s && rem_ok); simpl; rewrite qget_insert;
        (destruct (decide _) as [<-|]; [|done]);
        by rewrite filter_ne_absent.
Qed.

Lemma leave_queue_removes_witness :
  leave_queue (final (init false) [Connect "p"; JoinQueue "p" None "u1" true PushStored])
    "p" true
  = (removeFromQueue true "all" "p"
       (final (init false) [Connect "p"; JoinQueue "p" None "u1" true PushStored]),
     [SocketEmit "p" left_queue]).
Proof.
  apply (proj1 (proj2 (leave_queue_removes
           (final (init false) [Connect "p"; JoinQueue "p" None "u1" true PushStored])
           "p" true)));
    [reflexivity | discriminate].
Defined.

(** ** Disconnecting *)

(** C5, as stated, fails when the Redis client is configured: [p] joined
    and waits in the Redis list; after its disconnect it is still there. *)
Lemma disconnect_leaves_redis_entry :
  ¬ (∀ (evs : list Event) (id : Id) (fk : string),
       let s' := final (init true) (evs ++ [Disconnect id]) in
       (id ∉ qget (inMemoryQueues s') fk) ∧
       (id ∉ qget (redisLists s') (redis_key fk))).
Proof.
  intros H.
  destruct (H [Connect "p"; JoinQueue "p" None "u1" true PushStored] "p" "all")
    as [_ Hred].
  apply Hred. vm_compute. apply elem_of_cons. by left.
Qed.

(** C5 (amended): the disconnect handler emits [peer_left] once per
    session the participant is a slot of, to the other slot, and nothing
    else; each such session is deleted, so a later report on its
    identifier does nothing, and sessions under other identifiers are
    kept; the participant is filtered out of every
    in-process queue, while the Redis lists are left as they are.  With no
    session involving the participant nothing is emitted. *)
Theorem disconnect_notifies_peer (s : State) (id : Id) :
  let r := step s (Disconnect id) in
  r.2 = (fun e => RoomEmit (other_of e.2 id) peer_left)
          <$> filter (fun e => involves id e.2) (activeSessions s) ∧
  (∀ sid sess, filter (fun e => involves id e.2) (activeSessions s) = [(sid, sess)] →
     r.2 = [RoomEmit (other_of sess id) peer_left]) ∧
  (∀ sid sess, (sid, sess) ∈ activeSessions s → involves id sess →
     smap_get sid (activeSessions r.1) = None ∧
     ∀ x reason, report r.1 x sid reason = (r.1, [])) ∧
  (∀ sid sess, (sid, sess) ∈ activeSessions r.1 → ¬ involves id sess) ∧
  (∀ e, e ∈ activeSessions s →
     (∀ e', e' ∈ activeSessions s → involves id e'.2 → e'.1 ≠ e.1) →
     e ∈ activeSessions r.1) ∧
  (∀ fk, qget (inMemoryQueues r.1) fk
         = filter (fun x => x ≠ id) (qget (inMemoryQueues s) fk)) ∧
  (∀ fk, id ∉ qget (inMemoryQueues r.1) fk) ∧
  redisLists r.1 = redisLists s ∧
  ((∀ sid sess, (sid, sess) ∈ activeSessions s → ¬ involves id sess) → r.2 = []).
Proof.
  simpl. rewrite close_socket_eq. simpl.
  assert (Hout := drop_sessions_effects id (activeSessions s) (activeSessions s)).
  repeat split.
  - exact Hout.
  - intros sid sess Hone. by rewrite Hout, Hone.
  - eapply drop_sessions_gone; eauto.
  - unfold report. simpl. by erewrite drop_sessions_gone by eauto.
  - intros sid sess Hin. by apply drop_sessions_clean in Hin.
  - intros e Hin Hkeys. by apply drop_sessions_keeps.
  - intros fk. apply qget_fmap_filter.
  - intros fk. rewrite qget_fmap_filter. apply filter_ne_gone.
  - intros Hnone. rewrite Hout.
    rewrite filter_none; [done|].
    intros [sid sess] Hin. by apply (Hnone sid).
Qed.

Lemma disconnect_notifies_peer_witness :
  (step (final (init false) matched_pq) (Disconnect "p")).2
  = [RoomEmit "q" peer_left].
Proof.
  apply (proj1 (proj2 (disconnect_notifies_peer (final (init false) matched_pq) "p"))
           "sess_u2" (mkSession "q" "p")).
  reflexivity.
Defined.

(** ** Ejection *)

Lemma involves_other_of sess id : involves (other_of sess id) sess.
Proof. unfold involves, other_of. destruct (decide (a sess = id)); tauto. Qed.

Lemma close_socket_effects s id e :
  e ∈ (close_socket s id).2 → ∃ room, e = RoomEmit room peer_left.
Proof.
  rewrite close_socket_eq. simpl. rewrite drop_sessions_effects.
  intros [x [-> _]]%list_elem_of_fmap. by eexists.
Qed.








(** ** Exclusive placement of participants *)

Lemma shrinks_refl l : shrinks l l.
Proof. by split. Qed.

Lemma shrinks_nil l : shrinks [] l.
Proof. split; [intros _; apply NoDup_nil_2 | by intros x ?%elem_of_nil]. Qed.

Lemma shrinks_tail x l : shrinks l (x :: l).
Proof.
  split; [by intros [_ ?]%NoDup_cons | intros y ?; apply elem_of_cons; by right].
Qed.

Lemma shrinks_filter (P : Id → Prop) `{!∀ x, Decision (P x)} l :
  shrinks (filter P l) l.
Proof.
  split; [apply NoDup_filter | intros x [_ ?]%list_elem_of_filter; done].
Qed.

Lemma store_shrinks_refl m : store_shrinks m m.
Proof. intros k. apply shrinks_refl. Qed.

Lemma store_shrinks_insert m K l :
  shrinks l (qget m K) → store_shrinks (<[K := l]> m) m.
Proof.
  intros H k. rewrite qget_insert. destruct (decide (K = k)) as [<-|]; [done|].
  apply shrinks_refl.
Qed.

Lemma store_shrinks_delete m K : store_shrinks (delete K m) m.
Proof.
  intros k. unfold qget at 1. rewrite lookup_delete.
  destruct (decide (K = k)); simpl; [apply shrinks_nil | apply shrinks_refl].
Qed.

Lemma store_shrinks_sweep m id : store_shrinks (filter (fun x => x ≠ id) <$> m) m.
Proof. intros k. rewrite qget_fmap_filter. apply shrinks_filter. Qed.

Lemma Inv3_sym m1 m2 ss : Inv3 m1 m2 ss → Inv3 m2 m1 ss.
Proof.
  intros (H1 & H2 & Ha & Hu1 & Hu2 & Ho). repeat split; try tauto.
  - apply H2.
  - apply H2.
  - apply H1.
  - apply H1.
  - intros id k1 k2 ? ?. by apply (Ha id k2 k1).
Qed.

Lemma Inv3_shrink m1 m2 ss m1' m2' ss' :
  Inv3 m1 m2 ss →
  store_shrinks m1' m1 → store_shrinks m2' m2 → (∀ e, e ∈ ss' → e ∈ ss) →
  Inv3 m1' m2' ss'.
Proof.
  intros ([N1 O1] & [N2 O2] & Ha & Hu1 & Hu2 & Ho) S1 S2 Ss.
  repeat split.
  - intros k. apply (S1 k), N1.
  - intros id k1 k2 ?%S1 ?%S1. by apply (O1 id).
  - intros k. apply (S2 k), N2.
  - intros id k1 k2 ?%S2 ?%S2. by apply (O2 id).
  - intros id k1 k2 ?%S1 ?%S2. by apply (Ha id k1 k2).
  - intros id k e ?%S1 ?%Ss. by apply (Hu1 id k).
  - intros id k e ?%S2 ?%Ss. by apply (Hu2 id k).
  - intros id e1 e2 ?%Ss ?%Ss. by apply Ho.
Qed.

(** Appending a participant that is nowhere to one queue of one store. *)
Lemma Inv3_push m1 m2 ss K id :
  Inv3 m1 m2 ss →
  (∀ k, id ∉ qget m1 k) → (∀ k, id ∉ qget m2 k) →
  (∀ e, e ∈ ss → ¬ involves id e.2) →
  Inv3 (<[K := qget m1 K ++ [id]]> m1) m2 ss.
Proof.
  intros ([N1 O1] & S2 & Ha & Hu1 & Hu2 & Ho) A1 A2 Fr.
  assert (Hin : ∀ x k, x ∈ qget (<[K := qget m1 K ++ [id]]> m1) k →
                       x ∈ qget m1 k ∨ (x = id ∧ k = K)).
  { intros x k. rewrite qget_insert. destruct (decide (K = k)) as [<-|]; [|tauto].
    rewrite elem_of_app, list_elem_of_singleton. tauto. }
  repeat split; try done.
  - intros k. rewrite qget_insert. destruct (decide (K = k)) as [<-|]; [|apply N1].
    apply NoDup_app. split; [apply N1|]. split; [|apply NoDup_singleton].
    intros x Hx ->%list_elem_of_singleton. by apply (A1 K).
  - intros x k1 k2 [H1|[-> ->]]%Hin [H2|[E2 ->]]%Hin; try done.
    + by apply (O1 x).
    + subst x. by apply A1 in H1.
    + by apply A1 in H2.
  - apply S2.
  - apply S2.
  - intros x k1 k2 [H1|[-> ->]]%Hin H2; [by apply (Ha x k1 k2)|].
    by apply A2 in H2.
  - intros x k e [H1|[-> ->]]%Hin He; [by apply (Hu1 x k)|]. by apply Fr.
Qed.

(** Taking the head of a queue and pairing it with an idle requester. *)
Lemma Inv3_match m1 m2 ss ss' K p rest id sid :
  Inv3 m1 m2 ss →
  qget m1 K = p :: rest →
  (∀ k, id ∉ qget m1 k) → (∀ k, id ∉ qget m2 k) →
  (∀ e, e ∈ ss → ¬ involves id e.2) →
  (∀ e, e ∈ ss' → e = (sid, mkSession id p) ∨ e ∈ ss) →
  Inv3 (<[K := rest]> m1) m2 ss'.
Proof.
  intros HI Hq A1 A2 Fr Hss'.
  assert (Hsh : store_shrinks (<[K := rest]> m1) m1).
  { apply store_shrinks_insert. rewrite Hq. apply shrinks_tail. }
  destruct (Inv3_shrink _ _ _ _ _ ss HI Hsh (store_shrinks_refl m2) (fun e H => H))
    as (S1 & S2 & Ha & _ & _ & _).
  destruct HI as ([N1 O1] & _ & Ha0 & Hu1 & Hu2 & Ho).
  assert (HpK : p ∈ qget m1 K) by (rewrite Hq; apply elem_of_cons; by left).
  assert (Hp1 : ∀ k, p ∉ qget (<[K := rest]> m1) k).
  { intros k. rewrite qget_insert. destruct (decide (K = k)) as [<-|Hne].
    - specialize (N1 K). rewrite Hq in N1. by apply NoDup_cons in N1 as [? _].
    - intros Hk. apply Hne. by apply (O1 p). }
  assert (Hp2 : ∀ k, p ∉ qget m2 k).
  { intros k Hk. by apply (Ha0 p K k). }
  assert (Hnew : ∀ x, involves x (mkSession id p) → x = id ∨ x = p).
  { intros x [<-|<-]; simpl; tauto. }
  repeat split; try (apply S1 || apply S2 || done).
  - intros x k e Hx [->|He]%Hss'.
    + simpl. intros [->| ->]%Hnew; [|by apply Hp1 in Hx].
      apply Hsh in Hx. by apply A1 in Hx.
    + apply Hsh in Hx. by apply (Hu1 x k).
  - intros x k e Hx [->|He]%Hss'.
    + simpl. intros [->| ->]%Hnew; [by apply A2 in Hx | by apply Hp2 in Hx].
    + by apply (Hu2 x k).
  - intros x e1 e2 [->|H1]%Hss' [->|H2]%Hss'; simpl; try done.
    + intros [->| ->]%Hnew Hx; exfalso.
      * by apply (Fr e2).
      * by apply (Hu1 p K e2).
    + intros Hx [->| ->]%Hnew; exfalso.
      * by apply (Fr e1).
      * by apply (Hu1 p K e1).
    + by apply Ho.
Qed.

Lemma Inv_shrink s s' :
  Inv s →
  store_shrinks (inMemoryQueues s') (inMemoryQueues s) →
  store_shrinks (redisLists s') (redisLists s) →
  (∀ e, e ∈ activeSessions s' → e ∈ activeSessions s) →
  Inv s'.
Proof. unfold Inv. apply Inv3_shrink. Qed.

Lemma idle_shrink s s' id :
  idle s id →
  store_shrinks (inMemoryQueues s') (inMemoryQueues s) →
  store_shrinks (redisLists s') (redisLists s) →
  (∀ e, e ∈ activeSessions s' → e ∈ activeSessions s) →
  idle s' id.
Proof.
  intros (A1 & A2 & Fr) S1 S2 Ss. repeat split.
  - intros k ?%S1. by apply (A1 k).
  - intros k ?%S2. by apply (A2 k).
  - intros e ?%Ss. by apply Fr.
Qed.

Lemma popWaiting_shrinks ok fk s :
  store_shrinks (inMemoryQueues (popWaiting ok fk s).2) (inMemoryQueues s) ∧
  store_shrinks (redisLists (popWaiting ok fk s).2) (redisLists s).
Proof.
  unfold popWaiting. destruct (redisClient s && ok).
  - destruct (qget (redisLists s) (redis_key fk)) as [|x rest] eqn:Hq; simpl.
    + split; apply store_shrinks_refl.
    + split; [apply store_shrinks_refl|].
      apply store_shrinks_insert. rewrite Hq. apply shrinks_tail.
  - simpl. split; [|apply store_shrinks_refl].
    apply store_shrinks_insert.
    destruct (qget (inMemoryQueues s) fk); [apply shrinks_nil | apply shrinks_tail].
Qed.

(** A popped candidate was the head of a queue, which now holds the rest. *)
Lemma popWaiting_Some ok fk s p :
  (popWaiting ok fk s).1 = Some p →
  (∃ rest, qget (inMemoryQueues s) fk = p :: rest ∧
           inMemoryQueues (popWaiting ok fk s).2 = <[fk := rest]> (inMemoryQueues s) ∧
           redisLists (popWaiting ok fk s).2 = redisLists s) ∨
  (∃ rest, qget (redisLists s) (redis_key fk) = p :: rest ∧
           redisLists (popWaiting ok fk s).2
           = <[redis_key fk := rest]> (redisLists s) ∧
           inMemoryQueues (popWaiting ok fk s).2 = inMemoryQueues s).
Proof.
  unfold popWaiting. destruct (redisClient s && ok).
  - destruct (qget (redisLists s) (redis_key fk)) as [|x rest] eqn:Hq; simpl;
      [discriminate|].
    intros [= ->]. right. by exists rest.
  - simpl. destruct (qget (inMemoryQueues s) fk) as [|x rest] eqn:Hq;
      [discriminate|].
    destruct (String.eqb x EmptyString); [discriminate|].
    intros [= ->]. left. by exists rest.
Qed.

Lemma pushWaiting_Inv reply fk id s :
  Inv s → idle s id → reply ≠ ExpireThrew → Inv (pushWaiting reply fk id s).
Proof.
  intros HI (A1 & A2 & Fr) Hreply. unfold pushWaiting, Inv.
  destruct (redisClient s); [destruct reply; [| |done]|]; simpl.
  - apply Inv3_sym, Inv3_push; [by apply Inv3_sym|done..].
  - by apply Inv3_push.
  - by apply Inv3_push.
Qed.

Lemma join_queue_Inv s id filters uuid pop_ok reply :
  Inv s → idle s id → reply ≠ ExpireThrew →
  Inv (join_queue s id filters uuid pop_ok reply).1.
Proof.
  intros HI Hidle Hreply. rewrite join_queue_eq. simpl.
  set (fk := makeFilterKey filters).
  set (s1 := set_filterKey id fk s).
  assert (HI1 : Inv s1) by done.
  assert (Hidle1 : idle s1 id) by done.
  destruct (popWaiting_shrinks pop_ok fk s1) as [Sm Sr].
  pose proof (popWaiting_frame pop_ok fk s1) as (Hss & _).
  destruct (usable_peer (popWaiting pop_ok fk s1).1 id) as [p|] eqn:Hp; simpl.
  - apply usable_peer_Some in Hp as (Hpop & _ & _).
    destruct Hidle1 as (A1 & A2 & Fr).
    unfold Inv. simpl. rewrite Hss.
    destruct (popWaiting_Some _ _ _ _ Hpop)
      as [(rest & Hq & -> & ->)|(rest & Hq & -> & ->)].
    + eapply Inv3_match; eauto. intros e. apply smap_set_elem.
    + apply Inv3_sym. eapply Inv3_match; eauto; [by apply Inv3_sym|].
      intros e. apply smap_set_elem.
  - apply pushWaiting_Inv; [| |done].
    + eapply Inv_shrink; eauto. by rewrite Hss.
    + eapply idle_shrink; eauto. by rewrite Hss.
Qed.

Lemma close_socket_Inv s id : Inv s → Inv (close_socket s id).1.
Proof.
  intros HI. rewrite close_socket_eq. simpl.
  eapply Inv_shrink; [exact HI|simpl..].
  - apply store_shrinks_sweep.
  - apply store_shrinks_refl.
  - apply drop_sessions_sub.
Qed.

Lemma step_Inv s ev : Inv s → polite_event s ev → Inv (step s ev).1.
Proof.
  intros HI Hpol.
  destruct ev as [id|id filters uuid pop_ok reply|id ok|id to d|id to d|id sid r|id|fk];
    simpl.
  - done.
  - destruct Hpol. by apply join_queue_Inv.
  - unfold leave_queue. destruct (sockets s !! id ≫= filterKey) as [k|]; [|done].
    destruct (String.eqb k EmptyString); simpl; [done|].
    unfold removeFromQueue.
    destruct (redisClient s && ok); simpl;
      (eapply Inv_shrink; [exact HI|simpl..]);
      try apply store_shrinks_refl; try done;
      apply store_shrinks_insert, shrinks_filter.
  - unfold signal. by destruct (falsy_key to).
  - unfold relay_msg. by destruct (falsy_key to).
  - destruct (smap_get sid (activeSessions s)) as [sess|] eqn:Hget.
    + rewrite (report_known _ _ _ _ _ Hget). simpl.
      destruct (decide _); simpl; [|done].
      by apply close_socket_Inv.
    + unfold report. by rewrite Hget.
  - by apply close_socket_Inv.
  - eapply Inv_shrink; [exact HI|simpl..].
    + apply store_shrinks_refl.
    + apply store_shrinks_delete.
    + done.
Qed.

Lemma Inv_init rc : Inv (init rc).
Proof.
  assert (Hempty : ∀ (id : Id) k, id ∉ qget ∅ k).
  { intros id k. rewrite qget_empty. apply not_elem_of_nil. }
  assert (Hok : StoreOk ∅).
  { split; [intros k; rewrite qget_empty; apply NoDup_nil_2|].
    intros id k1 k2 H. by apply Hempty in H. }
  unfold Inv, Inv3, init. simpl. repeat split; try apply Hok.
  - intros id k1 k2 H. by apply Hempty in H.
  - intros id k e H. by apply Hempty in H.
  - intros id k e H. by apply Hempty in H.
  - intros id e1 e2 H. by apply elem_of_nil in H.
Qed.

Lemma append_cancel (p s1 s2 : string) : p +:+ s1 = p +:+ s2 → s1 = s2.
Proof.
  induction p as [|c p IH]; simpl; [done|]. intros [= H]. by apply IH.
Qed.

Lemma redis_key_inj fk1 fk2 : redis_key fk1 = redis_key fk2 → fk1 = fk2.
Proof. apply append_cancel. Qed.

Lemma Inv_exclusive s : Inv s → exclusive s.
Proof.
  intros ([N1 O1] & [N2 O2] & Ha & Hu1 & Hu2 & Ho) id. split; [|split].
  - intros fk1 fk2 [H1|H1] [H2|H2].
    + by apply (O1 id).
    + destruct (Ha id _ _ H1 H2).
    + destruct (Ha id _ _ H2 H1).
    + apply redis_key_inj. by apply (O2 id).
  - intros fk sid [H|H] (sess & Hin & Hinv).
    + by apply (Hu1 id fk (sid, sess)).
    + by apply (Hu2 id (redis_key fk) (sid, sess)).
  - intros sid1 sid2 (sess1 & Hin1 & Hinv1) (sess2 & Hin2 & Hinv2).
    by injection (Ho id _ _ Hin1 Hin2 Hinv1 Hinv2).
Qed.

(** C1, as stated, fails: a participant that joins twice with different
    filters waits in two queues at once. *)
Lemma rejoin_waits_twice :
  ¬ (∀ evs : list Event, exclusive (final (init false) evs)).
Proof.
  intros H.
  destruct (H [Connect "p";
               JoinQueue "p" None "u1" true PushStored;
               JoinQueue "p" (Some (JObj [("x", JNum 1)])) "u2" true PushStored] "p")
    as (Hone & _).
  specialize (Hone "all" (makeFilterKey (Some (JObj [("x", JNum 1)])))).
  assert (Hne : "all" ≠ makeFilterKey (Some (JObj [("x", JNum 1)])))
    by (vm_compute; discriminate).
  apply Hne, Hone; left; vm_compute; apply elem_of_cons; by left.
Qed.

(** The same run goes on to break the two other parts: [q] and [r] are
    each matched with [p], which ends in two sessions. *)
Example rejoin_matched_twice :
  let s := final (init false)
             [Connect "p"; Connect "q"; Connect "r";
              JoinQueue "p" None "u1" true PushStored;
              JoinQueue "p" (Some (JObj [("x", JNum 1)])) "u2" true PushStored;
              JoinQueue "q" None "u3" true PushStored;
              JoinQueue "r" (Some (JObj [("x", JNum 1)])) "u4" true PushStored] in
  activeSessions s
  = [("sess_u3", mkSession "q" "p"); ("sess_u4", mkSession "r" "p")].
Proof. vm_compute. reflexivity. Qed.

Lemma absentb_spec m id : absentb m id = true → ∀ k, id ∉ qget m k.
Proof.
  intros H%bool_decide_eq_true k. unfold qget.
  destruct (m !! k) as [l|] eqn:E; simpl; [by apply (H k) | apply not_elem_of_nil].
Qed.

Lemma idleb_spec s id : idleb s id = true → idle s id.
Proof.
  unfold idleb. intros [[H1 H2]%andb_true_iff H3]%andb_true_iff.
  apply bool_decide_eq_true in H3. rewrite Forall_forall in H3.
  repeat split; [by apply absentb_spec | by apply absentb_spec | exact H3].
Qed.

(** Why the amended C1 below asks for uncut pushes: when [expire] throws after
    [rPush] stored the entry, the fallback stores it a second time; [q]
    then pops [p] from Redis while [p] still waits in memory. *)
Example cut_push_breaks_exclusive :
  ¬ exclusive (final (init true)
                 [Connect "p"; Connect "q";
                  JoinQueue "p" None "u1" true ExpireThrew;
                  JoinQueue "q" None "u2" true PushStored]).
Proof.
  intros H.
  destruct (H "p") as (_ & Hqs & _).
  apply (Hqs "all" "sess_u2").
  - left. vm_compute. apply elem_of_cons. by left.
  - exists (mkSession "q" "p"). split; [vm_compute; apply elem_of_cons; by left|].
    by right.
Qed.

(** * Further properties of the handlers *)

(** ** The adapter as a queue *)

Lemma pushWaiting_served reply ok fk id s :
  same_store (redisClient s) reply ok = true →
  served_queue (pushWaiting reply fk id s) ok fk = served_queue s ok fk ++ [id].
Proof.
  unfold same_store, served_queue, pushWaiting, push_memory, push_redis.
  destruct (redisClient s) eqn:Hrc; [destruct reply, ok|destruct ok];
    simpl; rewrite ?Hrc; simpl; try discriminate; intros _;
    by rewrite qget_insert, decide_True.
Qed.

Lemma popWaiting_served ok fk s :
  (popWaiting ok fk s).1
  = match served_queue s ok fk with
    | [] => None
    | h :: _ =>
        if negb (redisClient s && ok) && String.eqb h EmptyString then None
        else Some h
    end ∧
  served_queue (popWaiting ok fk s).2 ok fk = tail (served_queue s ok fk).
Proof.
  unfold served_queue, popWaiting.
  destruct (redisClient s && ok) eqn:Hrc; simpl.
  - destruct (qget (redisLists s) (redis_key fk)) as [|h rest] eqn:Hq; simpl;
      rewrite Hrc; [by rewrite Hq|].
    by rewrite qget_insert, decide_True.
  - rewrite Hrc, qget_insert, decide_True by done. split; [|done].
    by destruct (qget (inMemoryQueues s) fk).
Qed.

Lemma head_snoc_nonempty (l : list Id) (x : Id) :
  x ≠ EmptyString → (∀ h, head l = Some h → h ≠ EmptyString) →
  ∀ h, head (l ++ [x]) = Some h → h ≠ EmptyString.
Proof.
  intros Hx Hl h. destruct l as [|y l]; simpl.
  - by intros [= <-].
  - intros [= <-]. by apply Hl.
Qed.

Lemma popWaiting_head ok fk s :
  (∀ h, head (served_queue s ok fk) = Some h → h ≠ EmptyString) →
  (popWaiting ok fk s).1 = head (served_queue s ok fk).
Proof.
  intros Hne. rewrite (proj1 (popWaiting_served ok fk s)).
  destruct (served_queue s ok fk) as [|h rest]; [done|].
  specialize (Hne h eq_refl). apply String.eqb_neq in Hne.
  by rewrite Hne, andb_false_r.
Qed.

(** X1: the adapter is first-in first-out on the store that serves both
    calls: after a push, a pop returns the oldest entry of the list with
    the new entry appended, and leaves the rest of that list. *)
Theorem pop_after_push (s : State) (reply : PushReply) (ok : bool)
    (fk : string) (socketId : Id) :
  same_store (redisClient s) reply ok = true →
  socketId ≠ EmptyString →
  (∀ h, head (served_queue s ok fk) = Some h → h ≠ EmptyString) →
  let r := popWaiting ok fk (pushWaiting reply fk socketId s) in
  r.1 = head (served_queue s ok fk ++ [socketId]) ∧
  served_queue r.2 ok fk = tail (served_queue s ok fk ++ [socketId]).
Proof.
  intros Hsame Hid Hne r. subst r.
  rewrite popWaiting_head; rewrite pushWaiting_served by done.
  - split; [done|]. by rewrite (proj2 (popWaiting_served _ _ _)), pushWaiting_served.
  - by apply head_snoc_nonempty.
Qed.

Lemma pop_after_push_witness :
  (popWaiting true "all"
     (pushWaiting PushStored "all" "q"
        (final (init true) [Connect "p"; JoinQueue "p" None "u1" true PushStored]))).1
  = Some "p".
Proof.
  apply (pop_after_push
           (final (init true) [Connect "p"; JoinQueue "p" None "u1" true PushStored])
           PushStored true "all" "q");
    [reflexivity | discriminate |].
  intros h. vm_compute. intros [= <-]. discriminate.
Defined.

(** ** Matching order *)

Lemma usable_peer_ok h id :
  h ≠ EmptyString → h ≠ id → usable_peer (Some h) id = Some h.
Proof.
  intros H1%String.eqb_neq H2%String.eqb_neq. unfold usable_peer.
  by rewrite H1, H2.
Qed.

Lemma join_queue_head_match (s : State) (id : Id) (filters : Payload)
    (uuid : string) (pop_ok : bool) (reply : PushReply) (h : Id) (rest : list Id) :
  let fk := makeFilterKey filters in
  let sid := "sess_" +:+ uuid in
  let r := join_queue s id filters uuid pop_ok reply in
  served_queue s pop_ok fk = h :: rest →
  h ≠ EmptyString → h ≠ id →
  r.2 = [SocketEmit id (matched sid h); RoomEmit h (matched sid id)] ∧
  smap_get sid (activeSessions r.1) = Some (mkSession id h) ∧
  (∀ e, e ∈ activeSessions r.1 → e = (sid, mkSession id h) ∨ e ∈ activeSessions s) ∧
  served_queue r.1 pop_ok fk = rest ∧
  (is_Some (sockets s !! id) → sessionId <$> sockets r.1 !! id = Some (Some sid)) ∧
  (is_Some (sockets s !! h) → sessionId <$> sockets r.1 !! h = Some (Some sid)).
Proof.
  intros fk sid r Hq Hh Hne. subst r. rewrite join_queue_eq. fold fk sid.
  set (s1 := set_filterKey id fk s).
  assert (Hq1 : served_queue s1 pop_ok fk = h :: rest) by exact Hq.
  assert (Hpop : (popWaiting pop_ok fk s1).1 = Some h).
  { rewrite popWaiting_head; rewrite Hq1; [done|]. by intros ? [= <-]. }
  pose proof (proj2 (popWaiting_served pop_ok fk s1)) as Hrest. rewrite Hq1 in Hrest.
  pose proof (popWaiting_frame pop_ok fk s1) as (Hss & _ & Hsock & _).
  simpl. rewrite Hpop, usable_peer_ok by done. simpl.
  split; [done|]. split; [apply smap_get_set|]. split.
  { intros e He. apply smap_set_elem in He. by rewrite Hss in He. }
  split; [exact Hrest|].
  rewrite Hsock. subst s1. simpl. split.
  - intros [d Hd]. rewrite lookup_alter_ne, lookup_alter_eq, lookup_alter_eq, Hd by done.
    done.
  - intros [d Hd]. rewrite lookup_alter_eq, lookup_alter_ne, lookup_alter_ne, Hd by done.
    done.
Qed.

(** X2: a join_queue that finds a usable entry at the head of its queue is
    matched with that oldest entry and nobody else: both sides are sent
    [matched] with the same session identifier, the session is stored under
    it with the requester in slot [a] and the peer in slot [b], the rest of
    the queue keeps waiting in order, and both connected sockets record the
    session identifier. *)
Theorem join_matches_oldest (s : State) (id : Id) (filters : Payload)
    (uuid : string) (pop_ok : bool) (reply : PushReply) (h : Id) (rest : list Id) :
  let fk := makeFilterKey filters in
  let sid := "sess_" +:+ uuid in
  let r := join_queue s id filters uuid pop_ok reply in
  served_queue s pop_ok fk = h :: rest →
  h ≠ EmptyString → h ≠ id →
  r.2 = [SocketEmit id (matched sid h); RoomEmit h (matched sid id)] ∧
  smap_get sid (activeSessions r.1) = Some (mkSession id h) ∧
  (∀ e, e ∈ activeSessions r.1 → e = (sid, mkSession id h) ∨ e ∈ activeSessions s) ∧
  served_queue r.1 pop_ok fk = rest ∧
  (is_Some (sockets s !! id) → sessionId <$> sockets r.1 !! id = Some (Some sid)) ∧
  (is_Some (sockets s !! h) → sessionId <$> sockets r.1 !! h = Some (Some sid)).
Proof. apply join_queue_head_match. Qed.

Lemma join_matches_oldest_witness :
  (join_queue (final (init false) [Connect "p"; Connect "q";
                                   JoinQueue "p" None "u1" true PushStored])
     "q" (Some (JObj [])) "u2" true PushStored).2
  = [SocketEmit "q" (matched "sess_u2" "p"); RoomEmit "p" (matched "sess_u2" "q")].
Proof.
  apply (join_matches_oldest
           (final (init false) [Connect "p"; Connect "q";
                                JoinQueue "p" None "u1" true PushStored])
           "q" (Some (JObj [])) "u2" true PushStored "p" []);
    [reflexivity | discriminate | discriminate].
Defined.

Lemma join_queue_unmatched s id filters uuid pop_ok reply :
  let fk := makeFilterKey filters in
  usable_peer (popWaiting pop_ok fk (set_filterKey id fk s)).1 id = None →
  join_queue s id filters uuid pop_ok reply
  = (pushWaiting reply fk id (popWaiting pop_ok fk (set_filterKey id fk s)).2,
     [SocketEmit id queued]).
Proof. intros fk Hu. rewrite join_queue_eq. fold fk. simpl. by rewrite Hu. Qed.

(** X3: a waiting participant that asks to join again with the same key,
    while it is the oldest entry of the queue, is not matched with anybody
    waiting behind it: it is sent [queued], no session is created, and it
    moves to the back of the queue. *)
Theorem rejoin_goes_to_back (s : State) (id : Id) (filters : Payload)
    (uuid : string) (ok : bool) (reply : PushReply) (rest : list Id) :
  let fk := makeFilterKey filters in
  let r := join_queue s id filters uuid ok reply in
  served_queue s ok fk = id :: rest →
  same_store (redisClient s) reply ok = true →
  id ≠ EmptyString →
  r.2 = [SocketEmit id queued] ∧
  activeSessions r.1 = activeSessions s ∧
  served_queue r.1 ok fk = rest ++ [id].
Proof.
  intros fk r Hq Hsame Hid. subst r.
  set (s1 := set_filterKey id fk s).
  assert (Hq1 : served_queue s1 ok fk = id :: rest) by exact Hq.
  assert (Hpop : (popWaiting ok fk s1).1 = Some id).
  { rewrite popWaiting_head; rewrite Hq1; [done|]. by intros ? [= <-]. }
  pose proof (proj2 (popWaiting_served ok fk s1)) as Hrest. rewrite Hq1 in Hrest.
  pose proof (popWaiting_frame ok fk s1) as (Hss & _ & _ & Hrc).
  rewrite join_queue_unmatched by (fold fk s1; by rewrite Hpop, usable_peer_self).
  fold fk s1. simpl. split; [done|]. split.
  - by rewrite (proj1 (pushWaiting_frame _ _ _ _)), Hss.
  - rewrite pushWaiting_served by (by rewrite Hrc). by rewrite Hrest.
Qed.

Lemma rejoin_goes_to_back_witness :
  served_queue
    (join_queue (final (init true) [Connect "p"; Connect "q";
                                    JoinQueue "p" None "u1" true PushStored;
                                    JoinQueue "q" None "u2" false PushStored])
       "p" None "u3" true PushStored).1 true "all"
  = ["q"; "p"].
Proof.
  apply (rejoin_goes_to_back
           (final (init true) [Connect "p"; Connect "q";
                               JoinQueue "p" None "u1" true PushStored;
                               JoinQueue "q" None "u2" false PushStored])
           "p" None "u3" true PushStored ["q"]);
    [reflexivity | reflexivity | discriminate].
Defined.

Lemma join_queue_empty s id filters uuid pop_ok reply :
  let fk := makeFilterKey filters in
  served_queue s pop_ok fk = [] →
  join_queue s id filters uuid pop_ok reply
  = (pushWaiting reply fk id (popWaiting pop_ok fk (set_filterKey id fk s)).2,
     [SocketEmit id queued]) ∧
  (∀ k, qget (inMemoryQueues (popWaiting pop_ok fk (set_filterKey id fk s)).2) k
        = qget (inMemoryQueues s) k) ∧
  redisLists (popWaiting pop_ok fk (set_filterKey id fk s)).2 = redisLists s.
Proof.
  intros fk Hq.
  set (s1 := set_filterKey id fk s).
  assert (Hq1 : served_queue s1 pop_ok fk = []) by exact Hq.
  split; [|split].
  - apply join_queue_unmatched. fold fk s1.
    by rewrite (proj1 (popWaiting_served _ _ _)), Hq1.
  - intros k. unfold served_queue in Hq1. unfold popWaiting.
    destruct (redisClient s1 && pop_ok); [by rewrite Hq1|]. simpl.
    rewrite qget_insert. destruct (decide (fk = k)) as [<-|]; [|done].
    change (inMemoryQueues s1) with (inMemoryQueues s) in Hq1. by rewrite Hq1.
  - unfold served_queue in Hq1. unfold popWaiting.
    destruct (redisClient s1 && pop_ok); [by rewrite Hq1|]. done.
Qed.

(** Two join_queue handlers run one after the other, under the same
    filter key, the queue of that key being empty and the second pop served
    by the store the first push wrote to: the first requester is queued,
    the second is paired with it. *)
Lemma two_joins_in_turn (s : State) (p q : Id) (f1 f2 : Payload) (u1 u2 : string)
    (pop1 pop2 : bool) (reply1 reply2 : PushReply) :
  let fk := makeFilterKey f1 in
  let sid := "sess_" +:+ u2 in
  let r1 := join_queue s p f1 u1 pop1 reply1 in
  let r2 := join_queue r1.1 q f2 u2 pop2 reply2 in
  makeFilterKey f2 = fk →
  qget (inMemoryQueues s) fk = [] → qget (redisLists s) (redis_key fk) = [] →
  same_store (redisClient s) reply1 pop2 = true →
  p ≠ EmptyString → p ≠ q →
  r1.2 = [SocketEmit p queued] ∧
  r2.2 = [SocketEmit q (matched sid p); RoomEmit p (matched sid q)] ∧
  smap_get sid (activeSessions r2.1) = Some (mkSession q p) ∧
  served_queue r2.1 pop2 fk = [].
Proof.
  intros fk sid r1 r2 Hfk Hmem Hred Hsame Hp Hpq.
  assert (Hq : ∀ ok, served_queue s ok fk = []).
  { intros ok. unfold served_queue. by destruct (redisClient s && ok). }
  destruct (join_queue_empty s p f1 u1 pop1 reply1 (Hq pop1)) as (Hr1 & Hm1 & Hd1).
  fold fk in Hr1, Hm1, Hd1.
  set (s2 := (popWaiting pop1 fk (set_filterKey p fk s)).2) in *.
  assert (Hrc2 : redisClient s2 = redisClient s).
  { subst s2. by rewrite (proj2 (proj2 (proj2 (popWaiting_frame _ _ _)))). }
  assert (Hq2 : served_queue s2 pop2 fk = []).
  { unfold served_queue. rewrite Hrc2, Hm1, Hd1. apply Hq. }
  assert (Hq3 : served_queue r1.1 pop2 (makeFilterKey f2) = p :: []).
  { subst r1. rewrite Hr1, Hfk. simpl.
    rewrite pushWaiting_served by (by rewrite Hrc2). by rewrite Hq2. }
  split; [subst r1; by rewrite Hr1|].
  destruct (join_queue_head_match r1.1 q f2 u2 pop2 reply2 p [] Hq3 Hp Hpq)
    as (He & Hg & _ & Hs & _).
  rewrite Hfk in Hs. done.
Qed.

(** X5: the accepted inconsistency of the two stores, as the code has it:
    when the first participant was pushed to Redis and the [lPop] of the
    second one throws, the second pop is served by the empty in-process
    array, so the second participant is queued as well, no session is
    created, and the first one keeps waiting in its Redis list. *)
Theorem flapping_store_misses_peer (s : State) (p q : Id) (f : Payload)
    (u1 u2 : string) (pop1 : bool) (reply2 : PushReply) :
  let fk := makeFilterKey f in
  let r1 := join_queue s p f u1 pop1 PushStored in
  let r2 := join_queue r1.1 q f u2 false reply2 in
  redisClient s = true →
  qget (inMemoryQueues s) fk = [] → qget (redisLists s) (redis_key fk) = [] →
  r1.2 = [SocketEmit p queued] ∧
  r2.2 = [SocketEmit q queued] ∧
  activeSessions r2.1 = activeSessions s ∧
  p ∈ qget (redisLists r2.1) (redis_key fk) ∧
  (q ∈ qget (redisLists r2.1) (redis_key fk) ∨ q ∈ qget (inMemoryQueues r2.1) fk).
Proof.
  intros fk r1 r2 Hrc Hmem Hred.
  assert (Hq : ∀ ok, served_queue s ok fk = []).
  { intros ok. unfold served_queue. by destruct (redisClient s && ok). }
  destruct (join_queue_empty s p f u1 pop1 PushStored (Hq pop1)) as (Hr1 & Hm1 & Hd1).
  fold fk in Hr1, Hm1, Hd1.
  set (s2 := (popWaiting pop1 fk (set_filterKey p fk s)).2) in *.
  pose proof (popWaiting_frame pop1 fk (set_filterKey p fk s)) as (Hss2 & _ & _ & Hrc2).
  fold s2 in Hss2, Hrc2. simpl in Hss2, Hrc2.
  assert (Hs3 : r1.1 = push_redis fk p s2).
  { subst r1. rewrite Hr1. simpl. unfold pushWaiting. by rewrite Hrc2, Hrc. }
  assert (Hq3 : served_queue r1.1 false fk = []).
  { rewrite Hs3. unfold served_queue. rewrite andb_false_r. simpl.
    by rewrite Hm1. }
  destruct (join_queue_empty r1.1 q f u2 false reply2 Hq3) as (Hr2 & Hm2 & Hd2).
  fold fk in Hr2, Hm2, Hd2.
  set (s4 := (popWaiting false fk (set_filterKey q fk r1.1)).2) in *.
  pose proof (popWaiting_frame false fk (set_filterKey q fk r1.1)) as (Hss4 & _ & _ & Hrc4).
  fold s4 in Hss4, Hrc4. simpl in Hss4, Hrc4.
  assert (Hp4 : p ∈ qget (redisLists s4) (redis_key fk)).
  { rewrite Hd2, Hs3. simpl. rewrite qget_insert, decide_True by done.
    apply elem_of_app. right. by apply list_elem_of_singleton. }
  split; [subst r1; by rewrite Hr1|].
  subst r2. rewrite Hr2. simpl. split; [done|].
  split.
  { rewrite (proj1 (pushWaiting_frame _ _ _ _)), Hss4, Hs3. simpl. exact Hss2. }
  assert (Hsnoc : ∀ l : list Id, q ∈ l ++ [q]).
  { intros l. apply elem_of_app. right. by apply list_elem_of_singleton. }
  assert (Hkeep : ∀ l : list Id, p ∈ l → p ∈ l ++ [q]).
  { intros l ?. apply elem_of_app. by left. }
  unfold pushWaiting, push_memory, push_redis.
  destruct (redisClient s4); [destruct reply2|]; simpl;
    rewrite ?qget_insert, ?decide_True by done; auto.
Qed.

Lemma flapping_store_misses_peer_witness :
  activeSessions
    (join_queue (join_queue (init true) "p" None "u1" true PushStored).1
       "q" None "u2" false RPushThrew).1 = [].
Proof.
  apply (flapping_store_misses_peer (init true) "p" "q" None "u1" "u2" true RPushThrew);
    reflexivity.
Defined.

(** ** Filter keys, again *)

Lemma makeFilterKey_nonempty (f : Payload) : makeFilterKey f ≠ EmptyString.
Proof.
  destruct f as [v|]; [|discriminate]. unfold makeFilterKey.
  destruct (negb (truthy v) || Nat.eqb (keys_length v) 0) eqn:E; [discriminate|].
  destruct v as [|b|n|str|items|props]; simpl in *; try discriminate.
  - by rewrite orb_true_r in E.
  - by rewrite orb_true_r in E.
Qed.

Lemma join_queue_filterKey s id d filters uuid pop_ok reply :
  sockets s !! id = Some d →
  ∃ d', sockets (join_queue s id filters uuid pop_ok reply).1 !! id = Some d' ∧
        filterKey d' = Some (makeFilterKey filters).
Proof.
  intros Hd. rewrite join_queue_eq. simpl.
  pose proof (popWaiting_frame pop_ok (makeFilterKey filters)
                (set_filterKey id (makeFilterKey filters) s)) as (_ & _ & Hsock & _).
  destruct (usable_peer _ id) as [p|] eqn:Hp; simpl.
  - apply usable_peer_Some in Hp as (_ & _ & Hne).
    rewrite Hsock. simpl.
    rewrite lookup_alter_ne, !lookup_alter_eq, Hd by done. simpl. by eexists.
  - rewrite (proj1 (proj2 (proj2 (pushWaiting_frame _ _ _ _)))), Hsock. simpl.
    rewrite lookup_alter_eq, Hd. simpl. by eexists.
Qed.

(** X6: a filter that is a number, a boolean, an empty string or an empty
    array lands in the bucket of the absent filter, ["all"]; a non-empty
    string or array is keyed by its JSON text; and no filter at all gets
    the empty key, so the guard of [leave_queue] never fires for a socket
    whose join_queue was handled. *)
Theorem makeFilterKey_primitives :
  (∀ n, makeFilterKey (Some (JNum n)) = "all") ∧
  (∀ b, makeFilterKey (Some (JBool b)) = "all") ∧
  makeFilterKey (Some (JStr EmptyString)) = "all" ∧
  makeFilterKey (Some (JArr [])) = "all" ∧
  (∀ c str, makeFilterKey (Some (JStr (String c str))) = quote (String c str)) ∧
  (∀ x items, makeFilterKey (Some (JArr (x :: items))) = stringify (JArr (x :: items))) ∧
  (∀ f, makeFilterKey f ≠ EmptyString) ∧
  (∀ s id d filters uuid pop_ok reply rem_ok,
     sockets s !! id = Some d →
     let r := join_queue s id filters uuid pop_ok reply in
     filterKey <$> sockets r.1 !! id = Some (Some (makeFilterKey filters)) ∧
     (leave_queue r.1 id rem_ok).2 = [SocketEmit id left_queue]).
Proof.
  split; [|split; [|split; [|split; [|split; [|split; [|split]]]]]]; try done.
  - intros n. unfold makeFilterKey. simpl. by rewrite orb_true_r.
  - intros b. unfold makeFilterKey. simpl. by rewrite orb_true_r.
  - apply makeFilterKey_nonempty.
  - intros s id d filters uuid pop_ok reply rem_ok Hd r.
    destruct (join_queue_filterKey s id d filters uuid pop_ok reply Hd)
      as (d' & Hd' & Hfk).
    fold r in Hd'. split; [by rewrite Hd'; simpl; rewrite Hfk|].
    unfold leave_queue. rewrite Hd'. simpl. rewrite Hfk.
    pose proof (makeFilterKey_nonempty filters) as Hne.
    apply String.eqb_neq in Hne. by rewrite Hne.
Qed.

Lemma makeFilterKey_primitives_witness :
  (leave_queue
     (join_queue (final (init false) [Connect "p"]) "p" (Some (JNum 7)) "u1" true
        PushStored).1 "p" true).2
  = [SocketEmit "p" left_queue].
Proof.
  apply (proj2 (proj2 (proj2 (proj2 (proj2 (proj2 (proj2 makeFilterKey_primitives))))))
           (final (init false) [Connect "p"]) "p" (mkData None None)).
  reflexivity.
Defined.

(** ** Joining and leaving *)

Lemma filter_snoc_absent (id : Id) (l : list Id) :
  id ∉ l → filter (fun x => x ≠ id) (l ++ [id]) = l.
Proof.
  intros Hl. rewrite filter_app, filter_ne_absent by done.
  rewrite filter_cons, decide_False by (intros H; by apply H).
  by rewrite filter_nil, app_nil_r.
Qed.

(** A join_queue handler and then a leave_queue handler of the same socket,
    run one after the other: joining an empty queue and leaving again is a
    round trip when the removal is served by the store the push wrote to and
    the push was not cut. *)
Lemma join_leave_in_turn (s : State) (id : Id) (d : SocketData) (filters : Payload)
    (uuid : string) (pop_ok rem_ok : bool) (reply : PushReply) :
  let fk := makeFilterKey filters in
  let r1 := join_queue s id filters uuid pop_ok reply in
  let r2 := leave_queue r1.1 id rem_ok in
  sockets s !! id = Some d →
  served_queue s pop_ok fk = [] →
  same_store (redisClient s) reply rem_ok = true →
  reply ≠ ExpireThrew →
  id ∉ served_queue s rem_ok fk →
  r1.2 = [SocketEmit id queued] ∧
  r2.2 = [SocketEmit id left_queue] ∧
  (∀ k, qget (inMemoryQueues r2.1) k = qget (inMemoryQueues s) k) ∧
  (∀ k, qget (redisLists r2.1) k = qget (redisLists s) k) ∧
  activeSessions r2.1 = activeSessions s.
Proof.
  intros fk r1 r2 Hd Hq Hsame Hcut Habs.
  destruct (join_queue_empty s id filters uuid pop_ok reply Hq) as (Hr1 & Hm & Hr).
  fold fk in Hr1, Hm, Hr.
  destruct (join_queue_filterKey s id d filters uuid pop_ok reply Hd) as (d' & Hd' & Hfk).
  fold r1 in Hd'.
  pose proof (makeFilterKey_nonempty filters) as Hne. apply String.eqb_neq in Hne.
  assert (Hr2 : r2 = (removeFromQueue rem_ok fk id r1.1, [SocketEmit id left_queue])).
  { subst r2. unfold leave_queue. rewrite Hd'. simpl. rewrite Hfk. by rewrite Hne. }
  set (s2 := (popWaiting pop_ok fk (set_filterKey id fk s)).2) in *.
  pose proof (popWaiting_frame pop_ok fk (set_filterKey id fk s)) as (Hss & _ & _ & Hrc).
  fold s2 in Hss, Hrc. simpl in Hss, Hrc.
  split; [subst r1; by rewrite Hr1|]. rewrite Hr2. split; [done|].
  subst r1. rewrite Hr1. simpl.
  unfold served_queue in Habs. unfold same_store in Hsame.
  unfold removeFromQueue, pushWaiting, push_memory, push_redis.
  rewrite !Hrc.
  destruct (redisClient s) eqn:Erc; [destruct reply; [| |done]|]; simpl;
    rewrite ?Hrc, ?Erc; simpl.
  - subst rem_ok. simpl in *. repeat split; try done.
    intros k. rewrite !qget_insert.
    destruct (decide (redis_key fk = k)) as [<-|]; [|by rewrite Hr].
    rewrite decide_True, Hr by done. by apply filter_snoc_absent.
  - destruct rem_ok; [discriminate|]. simpl in *.
    repeat split; try done; [|by rewrite Hr].
    intros k. rewrite !qget_insert.
    destruct (decide (fk = k)) as [<-|]; [|by rewrite Hm].
    rewrite decide_True, Hm by done. by apply filter_snoc_absent.
  - simpl in *. repeat split; try done; [|by rewrite Hr].
    intros k. rewrite !qget_insert.
    destruct (decide (fk = k)) as [<-|]; [|by rewrite Hm].
    rewrite decide_True, Hm by done. by apply filter_snoc_absent.
Qed.

(** ** Abuse scores *)





Lemma step_scores s ev :
  abuseScores (step s ev).1 = abuseScores s ∨
  ∃ t, abuseScores (step s ev).1 = <[t := score s t + 1]> (abuseScores s).
Proof.
  destruct ev as [id|id filters uuid pop_ok reply|id ok|id to d|id to d|id sid r|id|fk];
    simpl; try (by left).
  - left. rewrite join_queue_eq. simpl.
    destruct (usable_peer _ id); simpl.
    + by rewrite (proj1 (proj2 (popWaiting_frame _ _ _))).
    + by rewrite (proj1 (proj2 (pushWaiting_frame _ _ _ _))),
                 (proj1 (proj2 (popWaiting_frame _ _ _))).
  - left. unfold leave_queue. destruct (sockets s !! id ≫= filterKey) as [k|]; [|done].
    destruct (String.eqb k EmptyString); simpl; [done|].
    unfold removeFromQueue. by destruct (redisClient s && ok).
  - left. unfold signal. by destruct (falsy_key to).
  - left. unfold relay_msg. by destruct (falsy_key to).
  - destruct (smap_get sid (activeSessions s)) as [sess|] eqn:Hget.
    + right. eexists. by apply score_after_report.
    + left. unfold report. by rewrite Hget.
  - left. by rewrite close_socket_eq.
Qed.

Lemma step_score_mono s ev id :
  (score s id ≤ score (step s ev).1 id)%nat ∧
  (is_Some (abuseScores s !! id) → is_Some (abuseScores (step s ev).1 !! id)).
Proof.
  unfold score. destruct (step_scores s ev) as [E|[t E]]; rewrite E; [by split|].
  rewrite lookup_insert. destruct (decide (t = id)) as [->|]; simpl.
  - split; [unfold score; lia | by eexists].
  - by split.
Qed.

(** X9: abuse counts only grow: along any run from any state, no event
    lowers the count of any identifier, and an entry of the abuse-score
    map, once there, is never removed. *)
Theorem scores_never_decrease (s : State) (evs : list Event) (id : Id) :
  (score s id ≤ score (final s evs) id)%nat ∧
  (is_Some (abuseScores s !! id) → is_Some (abuseScores (final s evs) !! id)).
Proof.
  unfold final. revert s. induction evs as [|ev evs IH]; intros s; simpl; [done|].
  destruct (step_score_mono s ev id) as [H1 H2].
  destruct (step s ev) as [s1 out1]. specialize (IH s1). simpl in *.
  destruct (run s1 evs) as [s2 out2]. simpl in *.
  split; [lia | tauto].
Qed.

Lemma scores_never_decrease_witness :
  is_Some (abuseScores
             (final (final (init false) (matched_pq ++ [Report "q" "sess_u2" None]))
                [Disconnect "p"; Disconnect "q"; Connect "p"]) !! "p").
Proof.
  apply (scores_never_decrease
           (final (init false) (matched_pq ++ [Report "q" "sess_u2" None]))
           [Disconnect "p"; Disconnect "q"; Connect "p"] "p").
  vm_compute. by eexists.
Defined.



(** ** Disconnecting, again *)

Lemma drop_sessions_none id es m :
  (∀ e, e ∈ es → ¬ involves id e.2) → drop_sessions id es m = (m, []).
Proof.
  revert m. induction es as [|[sid sess] es IH]; intros m Hes; simpl; [done|].
  rewrite decide_False by (apply (Hes (sid, sess)), elem_of_cons; by left).
  apply IH. intros e He. apply Hes, elem_of_cons. by right.
Qed.

Lemma sweep_twice (id : Id) (m : gmap string (list Id)) :
  filter (fun x => x ≠ id) <$> (filter (fun x => x ≠ id) <$> m)
  = filter (fun x => x ≠ id) <$> m.
Proof.
  apply map_eq. intros k. rewrite !lookup_fmap.
  destruct (m !! k) as [l|]; simpl; [|done]. by rewrite filter_ne_twice.
Qed.

(** X11: handling the disconnect of the same socket a second time changes
    nothing and emits nothing: the first run already took the socket out of
    every in-process queue and deleted each session it was a slot of. *)
Theorem disconnect_twice (s : State) (id : Id) :
  step (step s (Disconnect id)).1 (Disconnect id)
  = ((step s (Disconnect id)).1, []).
Proof.
  simpl. rewrite (close_socket_eq s id). simpl.
  rewrite close_socket_eq. simpl.
  rewrite drop_sessions_none by (intros e He; by apply drop_sessions_clean in He).
  simpl. unfold set_sessions, set_mem, set_sockets. simpl.
  by rewrite sweep_twice, delete_delete_eq.
Qed.

(** ** Sessions without Redis *)

Lemma step_redisClient s ev : redisClient (step s ev).1 = redisClient s.
Proof.
  destruct ev as [id|id filters uuid pop_ok reply|id ok|id to d|id to d|id sid r|id|fk];
    simpl; try done.
  - rewrite join_queue_eq. simpl. destruct (usable_peer _ id); simpl.
    + by rewrite (proj2 (proj2 (proj2 (popWaiting_frame _ _ _)))).
    + by rewrite (proj2 (proj2 (proj2 (pushWaiting_frame _ _ _ _)))),
                 (proj2 (proj2 (proj2 (popWaiting_frame _ _ _)))).
  - unfold leave_queue. destruct (sockets s !! id ≫= filterKey) as [k|]; [|done].
    destruct (String.eqb k EmptyString); simpl; [done|].
    unfold removeFromQueue. by destruct (redisClient s && ok).
  - unfold signal. by destruct (falsy_key to).
  - unfold relay_msg. by destruct (falsy_key to).
  - destruct (smap_get sid (activeSessions s)) as [sess|] eqn:Hget.
    + rewrite (report_known _ _ _ _ _ Hget). simpl.
      destruct (decide _); simpl; [|done]. by rewrite close_socket_eq.
    + unfold report. by rewrite Hget.
  - by rewrite close_socket_eq.
Qed.

Lemma close_socket_live s id : all_live s → all_live (close_socket s id).1.
Proof.
  intros [Hq Hs]. rewrite close_socket_eq. unfold all_live. cbn -[qget]. split.
  - intros k x. rewrite qget_fmap_filter. intros [Hne Hx]%list_elem_of_filter.
    rewrite lookup_delete_ne by done. by apply (Hq k).
  - intros e He.
    pose proof (drop_sessions_sub _ _ _ _ He) as Hes.
    apply drop_sessions_clean in He. unfold involves in He.
    destruct (Hs e Hes) as [Ha Hb].
    rewrite !lookup_delete_ne by (intros ->; tauto). done.
Qed.

Lemma all_live_shrink s s' :
  all_live s →
  store_shrinks (inMemoryQueues s') (inMemoryQueues s) →
  (∀ e, e ∈ activeSessions s' → e ∈ activeSessions s) →
  (∀ x, is_Some (sockets s !! x) → is_Some (sockets s' !! x)) →
  all_live s'.
Proof.
  intros [Hq Hs] Sm Ss Sk. split.
  - intros k x Hx%Sm. by apply Sk, (Hq k).
  - intros e He%Ss. destruct (Hs e He). split; by apply Sk.
Qed.

Lemma popWaiting_memory ok fk s p :
  redisClient s = false → (popWaiting ok fk s).1 = Some p →
  p ∈ qget (inMemoryQueues s) fk.
Proof.
  intros Hrc. unfold popWaiting. rewrite Hrc. simpl.
  destruct (qget (inMemoryQueues s) fk) as [|x l]; [discriminate|].
  destruct (String.eqb x EmptyString); [discriminate|].
  intros [= ->]. apply elem_of_cons. by left.
Qed.

Lemma join_queue_live s id filters uuid pop_ok reply :
  redisClient s = false → is_Some (sockets s !! id) → all_live s →
  all_live (join_queue s id filters uuid pop_ok reply).1.
Proof.
  intros Hrc Hid HL. rewrite join_queue_eq. simpl.
  set (fk := makeFilterKey filters).
  set (s1 := set_filterKey id fk s).
  assert (Hsk1 : ∀ x, is_Some (sockets s !! x) → is_Some (sockets s1 !! x)).
  { intros x Hx. subst s1. simpl. by apply lookup_alter_is_Some. }
  assert (HL1 : all_live s1).
  { eapply all_live_shrink; [exact HL| | |exact Hsk1]; [apply store_shrinks_refl|done]. }
  destruct (popWaiting_shrinks pop_ok fk s1) as [Sm _].
  pose proof (popWaiting_frame pop_ok fk s1) as (Hss & _ & Hsock & Hrc2).
  destruct (usable_peer (popWaiting pop_ok fk s1).1 id) as [p|] eqn:Hp; simpl.
  - apply usable_peer_Some in Hp as (Hpop & _ & _).
    apply (popWaiting_memory pop_ok fk s1 p Hrc) in Hpop.
    apply (proj1 HL1 fk) in Hpop.
    assert (Hkeep : ∀ x sid, is_Some (sockets s1 !! x) →
              is_Some (alter (fun d => mkData (filterKey d) (Some sid)) p
                         (alter (fun d => mkData (filterKey d) (Some sid)) id
                            (sockets (popWaiting pop_ok fk s1).2)) !! x)).
    { intros x sid Hx. rewrite Hsock. by do 2 apply lookup_alter_is_Some. }
    split; cbn -[qget].
    + intros k x Hx%Sm. by apply Hkeep, (proj1 HL1 k).
    + intros e [->|He]%smap_set_elem; simpl.
      * split; apply Hkeep; [by apply Hsk1 | exact Hpop].
      * rewrite Hss in He. destruct (proj2 HL1 e He). split; by apply Hkeep.
  - unfold pushWaiting. rewrite Hrc2. change (redisClient s1) with (redisClient s).
    rewrite Hrc. unfold push_memory. split; cbn -[qget].
    + intros k x. rewrite qget_insert. rewrite Hsock.
      destruct (decide (fk = k)) as [<-|].
      * intros [Hx%Sm| ->%list_elem_of_singleton]%elem_of_app;
          [by apply (proj1 HL1 fk) | by apply Hsk1].
      * intros Hx%Sm. by apply (proj1 HL1 k).
    + intros e He. rewrite Hss in He. rewrite Hsock. by apply (proj2 HL1).
Qed.

Lemma step_live s ev :
  redisClient s = false →
  match ev with
  | JoinQueue id _ _ _ _ => is_Some (sockets s !! id)
  | _ => True
  end →
  all_live s → all_live (step s ev).1.
Proof.
  intros Hrc Hev HL.
  destruct ev as [id|id filters uuid pop_ok reply|id ok|id to d|id to d|id sid r|id|fk];
    simpl.
  - eapply all_live_shrink; [exact HL|apply store_shrinks_refl|done|]. simpl.
    intros x Hx. apply lookup_insert_is_Some'. by right.
  - by apply join_queue_live.
  - unfold leave_queue. destruct (sockets s !! id ≫= filterKey) as [k|]; [|done].
    destruct (String.eqb k EmptyString); simpl; [done|].
    unfold removeFromQueue. rewrite Hrc. simpl.
    eapply all_live_shrink; [exact HL| |done|done]. simpl.
    apply store_shrinks_insert, shrinks_filter.
  - unfold signal. by destruct (falsy_key to).
  - unfold relay_msg. by destruct (falsy_key to).
  - destruct (smap_get sid (activeSessions s)) as [sess|] eqn:Hget.
    + rewrite (report_known _ _ _ _ _ Hget). simpl.
      destruct (decide _); simpl; [|done]. by apply close_socket_live.
    + unfold report. by rewrite Hget.
  - by apply close_socket_live.
  - done.
Qed.

Lemma run_live s evs :
  redisClient s = false → joins_connected s evs → all_live s →
  all_live (final s evs).
Proof.
  unfold final. revert s.
  induction evs as [|ev evs IH]; intros s Hrc [Hev Hrest] HL || intros s Hrc _ HL;
    simpl; [done|].
  pose proof (step_live s ev Hrc Hev HL) as H1.
  pose proof (step_redisClient s ev) as H2. rewrite Hrc in H2.
  destruct (step s ev) as [s1 out1]; simpl in *.
  specialize (IH s1 H2 Hrest H1).
  by destruct (run s1 evs) as [s2 out2].
Qed.

(** Without a Redis client, handlers run one after the other, join_queue
    issued by connected sockets only: everybody waiting in a queue and both
    members of every session are connected, and a report on an existing
    session ejects its target exactly when it takes the count past 3. *)
Lemma members_live_in_turn (evs : list Event) :
  let s := final (init false) evs in
  joins_connected (init false) evs →
  all_live s ∧
  ∀ id sid reason sess,
    smap_get sid (activeSessions s) = Some sess →
    (SocketEmit (other_of sess id) (kicked "abuse") ∈ (report s id sid reason).2
     ↔ 3 < score s (other_of sess id) + 1).
Proof.
  intros s Hj.
  assert (HL : all_live s).
  { apply run_live; [done|exact Hj|]. split.
    - intros k id. rewrite qget_empty. by intros ?%elem_of_nil.
    - by intros e ?%elem_of_nil. }
  split; [exact HL|]. intros id sid reason sess Hget.
  assert (Hconn : is_Some (sockets s !! other_of sess id)).
  { destruct (proj2 HL (sid, sess) (smap_get_Some_elem _ _ _ Hget)) as [Ha Hb].
    unfold other_of. by destruct (decide (a sess = id)). }
  rewrite (report_known _ _ _ _ _ Hget). simpl.
  destruct (decide _) as [[Hlt _]|Hn]; simpl.
  - split; [done|]. intros _. apply elem_of_cons. by left.
  - split; [by intros ?%elem_of_nil|]. intros Hlt. destruct Hn. by split.
Qed.

(** ** How queues grow *)

Lemma pushWaiting_entries reply fk id s x :
  (∀ k, x ∈ qget (inMemoryQueues (pushWaiting reply fk id s)) k →
        x ∈ qget (inMemoryQueues s) k ∨ (x = id ∧ k = fk)) ∧
  (∀ k, x ∈ qget (redisLists (pushWaiting reply fk id s)) k →
        x ∈ qget (redisLists s) k ∨ (x = id ∧ k = redis_key fk)).
Proof.
  assert (Hsnoc : ∀ (m : gmap string (list Id)) K k,
            x ∈ qget (<[K := qget m K ++ [id]]> m) k →
            x ∈ qget m k ∨ (x = id ∧ k = K)).
  { intros m K k. rewrite qget_insert. destruct (decide (K = k)) as [<-|]; [|tauto].
    rewrite elem_of_app, list_elem_of_singleton. tauto. }
  unfold pushWaiting, push_memory, push_redis.
  destruct (redisClient s); [destruct reply|]; simpl; split; intros k;
    try tauto; apply Hsnoc.
Qed.

(** X14: a queue of either store only ever gains the identifier of the
    socket whose join_queue is being handled, at the back of the list of
    the key computed from its own filters; no other event, and no handler
    acting for somebody else, puts an identifier into a queue or moves one
    to another queue. *)
Theorem enqueued_only_by_own_join (s : State) (ev : Event) (x : Id) (k : string) :
  (x ∈ qget (inMemoryQueues (step s ev).1) k →
   x ∈ qget (inMemoryQueues s) k ∨
   ∃ filters uuid pop_ok reply,
     ev = JoinQueue x filters uuid pop_ok reply ∧ k = makeFilterKey filters) ∧
  (x ∈ qget (redisLists (step s ev).1) k →
   x ∈ qget (redisLists s) k ∨
   ∃ filters uuid pop_ok reply,
     ev = JoinQueue x filters uuid pop_ok reply ∧
     k = redis_key (makeFilterKey filters)).
Proof.
  assert (Hshrink : ∀ s',
            store_shrinks (inMemoryQueues s') (inMemoryQueues s) →
            store_shrinks (redisLists s') (redisLists s) →
            (x ∈ qget (inMemoryQueues s') k → x ∈ qget (inMemoryQueues s) k) ∧
            (x ∈ qget (redisLists s') k → x ∈ qget (redisLists s) k)).
  { intros s' Sm Sr. split; [apply (Sm k) | apply (Sr k)]. }
  assert (Hleft : ∀ s',
            store_shrinks (inMemoryQueues s') (inMemoryQueues s) →
            store_shrinks (redisLists s') (redisLists s) →
            (x ∈ qget (inMemoryQueues s') k →
             x ∈ qget (inMemoryQueues s) k ∨
             ∃ filters uuid pop_ok reply,
               ev = JoinQueue x filters uuid pop_ok reply ∧ k = makeFilterKey filters) ∧
            (x ∈ qget (redisLists s') k →
             x ∈ qget (redisLists s) k ∨
             ∃ filters uuid pop_ok reply,
               ev = JoinQueue x filters uuid pop_ok reply ∧
               k = redis_key (makeFilterKey filters))).
  { intros s' Sm Sr. destruct (Hshrink s' Sm Sr). split; intros ?; left; auto. }
  destruct ev as [id|id filters uuid pop_ok reply|id ok|id to d|id to d|id sid r|id|fk];
    unfold step.
  - apply Hleft; apply store_shrinks_refl.
  - rewrite join_queue_eq. simpl.
    set (fk := makeFilterKey filters).
    destruct (popWaiting_shrinks pop_ok fk (set_filterKey id fk s)) as [Sm Sr].
    destruct (usable_peer _ id) as [p|]; simpl.
    + by apply Hleft.
    + destruct (pushWaiting_entries reply fk id
                  (popWaiting pop_ok fk (set_filterKey id fk s)).2 x) as [Hm Hr].
      split; intros Hx.
      * apply Hm in Hx as [Hx|[-> ->]]; [left; by apply (Sm k)|].
        right. by exists filters, uuid, pop_ok, reply.
      * apply Hr in Hx as [Hx|[-> ->]]; [left; by apply (Sr k)|].
        right. by exists filters, uuid, pop_ok, reply.
  - unfold leave_queue. destruct (sockets s !! id ≫= filterKey) as [fk|]; simpl;
      [|apply Hleft; apply store_shrinks_refl].
    destruct (String.eqb fk EmptyString); simpl;
      [apply Hleft; apply store_shrinks_refl|].
    unfold removeFromQueue.
    destruct (redisClient s && ok); apply Hleft; simpl;
      try apply store_shrinks_refl; apply store_shrinks_insert, shrinks_filter.
  - unfold signal. destruct (falsy_key to); simpl; apply Hleft; apply store_shrinks_refl.
  - unfold relay_msg. destruct (falsy_key to); simpl; apply Hleft; apply store_shrinks_refl.
  - destruct (smap_get sid (activeSessions s)) as [sess|] eqn:Hget.
    + rewrite (report_known _ _ _ _ _ Hget). simpl.
      destruct (decide _); simpl; [|apply Hleft; apply store_shrinks_refl].
      rewrite close_socket_eq. apply Hleft; simpl;
        [apply store_shrinks_sweep | apply store_shrinks_refl].
    + unfold report. rewrite Hget. simpl. apply Hleft; apply store_shrinks_refl.
  - rewrite close_socket_eq. apply Hleft; simpl;
      [apply store_shrinks_sweep | apply store_shrinks_refl].
  - apply Hleft; [apply store_shrinks_refl | apply store_shrinks_delete].
Qed.

Lemma enqueued_only_by_own_join_witness :
  "p" ∈ qget (inMemoryQueues (init false)) "all" ∨
  ∃ filters uuid pop_ok reply,
    JoinQueue "p" None "u1" true PushStored = JoinQueue "p" filters uuid pop_ok reply ∧
    "all" = makeFilterKey filters.
Proof.
  apply (proj1 (enqueued_only_by_own_join (init false)
                  (JoinQueue "p" None "u1" true PushStored) "p" "all")).
  vm_compute. apply elem_of_cons. by left.
Defined.

(** ** Filter keys tell filters apart *)

(** The text of a value followed by anything determines the value, as long
    as what follows does not go on with a digit. *)

Lemma append_cons (c : ascii) (s1 s2 : string) :
  String c s1 +:+ s2 = String c (s1 +:+ s2).
Proof. reflexivity. Qed.

Lemma append_assoc (s1 s2 s3 : string) : (s1 +:+ s2) +:+ s3 = s1 +:+ (s2 +:+ s3).
Proof.
  induction s1 as [|c s1 IH]; [done|]. rewrite !append_cons. by rewrite IH.
Qed.

Lemma append_empty_r (s : string) : s +:+ EmptyString = s.
Proof. induction s as [|c s IH]; [done|]. rewrite append_cons. by rewrite IH. Qed.

Lemma pretty_N_char_digit x : is_digit (pretty_N_char x) = true.
Proof. unfold pretty_N_char. by repeat case_match. Qed.

Lemma pretty_N_go_digits x s :
  (digits_ahead s ≤ digits_ahead (pretty_N_go x s))%nat ∧
  ((0 < x)%N → (digits_ahead s < digits_ahead (pretty_N_go x s))%nat).
Proof.
  revert s. induction (N.lt_wf_0 x) as [x _ IH]; intros s.
  assert (x = 0 ∨ 0 < x)%N as [->|Hx] by lia.
  - rewrite pretty_N_go_0. split; [done|lia].
  - rewrite pretty_N_go_step by done.
    destruct (IH (x `div` 10)%N (N.div_lt x 10 Hx eq_refl)
                (String (pretty_N_char (x `mod` 10)) s)) as [Hle _].
    simpl in Hle. rewrite pretty_N_char_digit in Hle. split; [lia|]. intros _. lia.
Qed.

Lemma pretty_N_go_inj x y s s' :
  pretty_N_go x s = pretty_N_go y s' → digits_ahead s = digits_ahead s' →
  x = y ∧ s = s'.
Proof.
  revert y s s'. induction (N.lt_wf_0 x) as [x _ IH]; intros y s s'.
  assert ((x = 0 ∨ 0 < x) ∧ (y = 0 ∨ 0 < y))%N as [[->|Hx] [->|Hy]] by lia;
    rewrite ?pretty_N_go_0.
  - done.
  - intros -> Hd. destruct (pretty_N_go_digits y s') as [_ Hlt]. specialize (Hlt Hy). lia.
  - intros <- Hd. destruct (pretty_N_go_digits x s) as [_ Hlt]. specialize (Hlt Hx). lia.
  - rewrite (pretty_N_go_step x), (pretty_N_go_step y) by done. intros Hs Hd.
    apply IH in Hs as [Hdiv [= Hchar Hss]].
    + split; [|done].
      apply pretty_N_char_inj in Hchar; [|by apply N.mod_lt..].
      rewrite (N.div_mod x 10), (N.div_mod y 10) by done. lia.
    + by apply N.div_lt.
    + simpl. rewrite !pretty_N_char_digit. lia.
Qed.

Lemma pretty_N_go_app x s r : pretty_N_go x s +:+ r = pretty_N_go x (s +:+ r).
Proof.
  revert s. induction (N.lt_wf_0 x) as [x _ IH]; intros s.
  assert (x = 0 ∨ 0 < x)%N as [->|Hx] by lia; [by rewrite !pretty_N_go_0|].
  rewrite (pretty_N_go_step x s), (pretty_N_go_step x (s +:+ r)) by done.
  rewrite IH by (by apply N.div_lt). reflexivity.
Qed.

Lemma pretty_N_go_first x s :
  (0 < x)%N →
  ∃ c rest, pretty_N_go x s = String c rest ∧ is_digit c = true ∧ c ≠ "0"%char.
Proof.
  revert s. induction (N.lt_wf_0 x) as [x _ IH]; intros s Hx.
  rewrite pretty_N_go_step by done.
  destruct (N.eq_0_gt_0_cases (x `div` 10)) as [Hz|Hpos].
  - rewrite Hz, pretty_N_go_0. eexists _, _. split; [done|].
    split; [apply pretty_N_char_digit|].
    assert (x < 10)%N by (by apply N.div_small_iff in Hz).
    rewrite N.mod_small by done.
    intros Heq. apply (pretty_N_char_inj x 0) in Heq; lia.
  - apply IH; [by apply N.div_lt | done].
Qed.

Lemma ahead_zero r : no_digit_ahead r → digits_ahead r = 0.
Proof. destruct r as [|c r]; simpl; [done|]. by intros ->. Qed.

Lemma pretty_N_suffix (x : N) r :
  pretty x +:+ r = if decide (x = 0%N) then String "0" r else pretty_N_go x r.
Proof.
  unfold pretty, pretty_N. destruct (decide (x = 0%N)); [done|].
  by rewrite pretty_N_go_app.
Qed.

Lemma pretty_N_suffix_inj (x y : N) r1 r2 :
  pretty x +:+ r1 = pretty y +:+ r2 → no_digit_ahead r1 → no_digit_ahead r2 →
  x = y ∧ r1 = r2.
Proof.
  rewrite !pretty_N_suffix. intros H N1 N2.
  destruct (decide (x = 0%N)) as [->|Hx], (decide (y = 0%N)) as [->|Hy].
  - by injection H.
  - destruct (pretty_N_go_first y r2) as (c & rest & Hc & _ & Hne); [lia|].
    rewrite Hc in H. injection H as <- _. done.
  - destruct (pretty_N_go_first x r1) as (c & rest & Hc & _ & Hne); [lia|].
    rewrite Hc in H. injection H as -> _. done.
  - apply pretty_N_go_inj in H; [done|]. by rewrite !ahead_zero.
Qed.

Lemma pretty_N_first (x : N) r :
  ∃ c rest, pretty x +:+ r = String c rest ∧ is_digit c = true.
Proof.
  rewrite pretty_N_suffix. destruct (decide (x = 0%N)) as [->|Hx].
  - by eexists _, _.
  - destruct (pretty_N_go_first x r) as (c & rest & Hc & Hd & _); [lia|].
    by exists c, rest.
Qed.

Lemma pretty_Z_suffix_inj (x y : Z) r1 r2 :
  pretty x +:+ r1 = pretty y +:+ r2 → no_digit_ahead r1 → no_digit_ahead r2 →
  x = y ∧ r1 = r2.
Proof.
  intros H N1 N2. unfold pretty, pretty_Z in H.
  destruct x as [|x|x], y as [|y|y]; simpl in H; try discriminate.
  - by injection H.
  - change (pretty 0%N +:+ r1 = pretty (N.pos y) +:+ r2) in H.
    by apply pretty_N_suffix_inj in H as [? ?].
  - change (pretty (N.pos x) +:+ r1 = pretty 0%N +:+ r2) in H.
    by apply pretty_N_suffix_inj in H as [? ?].
  - change (pretty (N.pos x) +:+ r1 = pretty (N.pos y) +:+ r2) in H.
    apply pretty_N_suffix_inj in H as [[= ->] ->]; done.
  - exfalso. change (pretty (N.pos x) +:+ r1 = String "-" (pretty (N.pos y) +:+ r2)) in H.
    destruct (pretty_N_first (N.pos x) r1) as (c & rest & Hc & Hd).
    rewrite Hc in H. injection H as -> _. done.
  - exfalso. change (String "-" (pretty (N.pos x) +:+ r1) = pretty (N.pos y) +:+ r2) in H.
    destruct (pretty_N_first (N.pos y) r2) as (c & rest & Hc & Hd).
    rewrite Hc in H. injection H as <- _. done.
  - change (String "-" (pretty (N.pos x) +:+ r1)
            = String "-" (pretty (N.pos y) +:+ r2)) in H.
    injection H as H. apply pretty_N_suffix_inj in H as [[= ->] ->]; done.
Qed.

Lemma pretty_Z_first (x : Z) r :
  ∃ c rest, pretty x +:+ r = String c rest ∧ (is_digit c = true ∨ c = "-"%char).
Proof.
  destruct x as [|x|x].
  - eexists _, _. split; [done|]. by left.
  - destruct (pretty_N_first (N.pos x) r) as (c & rest & Hc & Hd).
    exists c, rest. split; [exact Hc | by left].
  - eexists _, _. split; [done|]. by right.
Qed.

Lemma hex_digit_inj (x y : nat) :
  (x < 16)%nat → (y < 16)%nat → hex_digit x = hex_digit y → x = y.
Proof.
  intros Hx Hy.
  do 16 (destruct x as [|x];
         [do 16 (destruct y as [|y]; [simpl; (done || discriminate)|]); lia|]).
  lia.
Qed.

Lemma nat_of_ascii_inj (c c' : ascii) : nat_of_ascii c = nat_of_ascii c' → c = c'.
Proof.
  intros H. rewrite <- (ascii_nat_embedding c), <- (ascii_nat_embedding c').
  by rewrite H.
Qed.

Lemma quote_char_case c : QuoteCase c (quote_char c).
Proof.
  unfold quote_char. repeat case_decide.
  - by apply QcQuote.
  - by apply QcBackslash.
  - apply QcNamed. rewrite H1. set_solver.
  - apply QcNamed. rewrite H2. set_solver.
  - apply QcNamed. rewrite H3. set_solver.
  - apply QcNamed. rewrite H4. set_solver.
  - apply QcNamed. rewrite H5. set_solver.
  - apply QcHex.
    + apply Nat.Div0.div_lt_upper_bound. lia.
    + apply Nat.mod_upper_bound. lia.
    + apply Nat.div_mod_eq.
  - by apply QcPlain.
Qed.

Ltac named_escape H :=
  repeat (apply elem_of_cons in H as [[= ? ?]|H]);
  try (by apply elem_of_nil in H); subst.

Lemma quote_char_suffix_inj c c' x y :
  quote_char c +:+ x = quote_char c' +:+ y → c = c' ∧ x = y.
Proof.
  destruct (quote_char_case c) as [Hc|Hc|l Hl|hi lo Hhi Hlo Hn|Hq Hb],
           (quote_char_case c') as [Hc'|Hc'|l' Hl'|hi' lo' Hhi' Hlo' Hn'|Hq' Hb'];
    try named_escape Hl; try named_escape Hl';
    unfold dquote, backslash in *;
    cbv beta iota delta [String.append]; intros Heq;
    injection Heq as Heq; subst; try done; try discriminate;
    try (split; [apply nat_of_ascii_inj; congruence | done]).
  apply hex_digit_inj in Heq; [|done..].
  apply hex_digit_inj in H; [|done..].
  split; [|done]. apply nat_of_ascii_inj. lia.
Qed.

Lemma quote_char_not_quote c x y : quote_char c +:+ x ≠ String dquote y.
Proof.
  destruct (quote_char_case c) as [Hc|Hc|l Hl|hi lo Hhi Hlo Hn|Hq Hb];
    unfold dquote, backslash in *;
    cbv beta iota delta [String.append]; intros Heq;
    injection Heq as Heq; subst; done || discriminate.
Qed.

Lemma quote_body_suffix_inj s1 s2 r1 r2 :
  quote_body s1 +:+ String dquote r1 = quote_body s2 +:+ String dquote r2 →
  s1 = s2 ∧ r1 = r2.
Proof.
  revert s2. induction s1 as [|c s1 IH]; intros [|c' s2]; cbn [quote_body];
    rewrite ?append_assoc.
  - by intros [= ->].
  - intros H. symmetry in H. by apply quote_char_not_quote in H.
  - intros H. by apply quote_char_not_quote in H.
  - intros [-> H]%quote_char_suffix_inj. by apply IH in H as [-> ->].
Qed.

Lemma quote_suffix s r :
  quote s +:+ r = String dquote (quote_body s +:+ String dquote r).
Proof. unfold quote. by rewrite append_cons, append_assoc. Qed.

Lemma quote_suffix_inj s1 s2 r1 r2 :
  quote s1 +:+ r1 = quote s2 +:+ r2 → s1 = s2 ∧ r1 = r2.
Proof.
  rewrite !quote_suffix. intros [= H]. by apply quote_body_suffix_inj.
Qed.

Lemma join_with_cons sep p rest R :
  join_with sep (p :: rest) +:+ R
  = p +:+ match rest with
          | [] => R
          | _ :: _ => sep +:+ (join_with sep rest +:+ R)
          end.
Proof. destruct rest; cbn [join_with]; [done|]. by rewrite !append_assoc. Qed.

Section JoinInjective.
Context {A : Type} (f : A → string) (close : ascii).
Context (Hclose : close ≠ ","%char) (Hnd : is_digit close = false).
Context (Hfirst : ∀ x R, ∃ c rest, f x +:+ R = String c rest ∧ c ≠ close).

Lemma join_tail_no_digit (l : list A) r :
  no_digit_ahead match map f l with
                 | [] => String close r
                 | _ :: _ => "," +:+ (join_with "," (map f l) +:+ String close r)
                 end.
Proof. destruct l; simpl; [exact Hnd | reflexivity]. Qed.

Lemma join_suffix_inj (l1 : list A) :
  Forall (fun x => ∀ y R1 R2, f x +:+ R1 = f y +:+ R2 →
                     no_digit_ahead R1 → no_digit_ahead R2 → x = y ∧ R1 = R2) l1 →
  ∀ l2 r1 r2,
    join_with "," (map f l1) +:+ String close r1
    = join_with "," (map f l2) +:+ String close r2 →
    l1 = l2 ∧ r1 = r2.
Proof.
  induction 1 as [|x l1 Hx Hl1 IH]; intros [|y l2] r1 r2; cbn [map].
  - by intros [= ->].
  - rewrite join_with_cons. intros H.
    destruct (Hfirst y (match map f l2 with
                        | [] => String close r2
                        | _ :: _ => "," +:+ (join_with "," (map f l2) +:+ String close r2)
                        end)) as (c & rest & Hc & Hne).
    rewrite Hc in H. injection H as -> _. done.
  - rewrite join_with_cons. intros H.
    destruct (Hfirst x (match map f l1 with
                        | [] => String close r1
                        | _ :: _ => "," +:+ (join_with "," (map f l1) +:+ String close r1)
                        end)) as (c & rest & Hc & Hne).
    rewrite Hc in H. injection H as <- _. done.
  - rewrite !join_with_cons. intros H.
    apply Hx in H as [-> H]; [|apply join_tail_no_digit..].
    destruct l1 as [|x' l1], l2 as [|y' l2]; cbn [map] in H.
    + by injection H as ->.
    + injection H as -> _. done.
    + injection H as <- _. done.
    + apply append_cancel in H. apply (IH (y' :: l2)) in H as [-> ->]. done.
Qed.
End JoinInjective.

Lemma stringify_arr items r :
  stringify (JArr items) +:+ r
  = String "[" (join_with "," (map stringify items) +:+ String "]" r).
Proof.
  change (stringify (JArr items))
    with (String "[" (join_with "," (map stringify items) +:+ String "]" EmptyString)).
  by rewrite append_cons, append_assoc.
Qed.

Lemma stringify_obj props r :
  stringify (JObj props) +:+ r
  = String "{" (join_with "," (map member_text props) +:+ String "}" r).
Proof.
  change (stringify (JObj props))
    with (String "{" (join_with "," (map member_text props) +:+ String "}" EmptyString)).
  by rewrite append_cons, append_assoc.
Qed.

Lemma member_text_suffix k x r :
  member_text (k, x) +:+ r = quote k +:+ String ":" (stringify x +:+ r).
Proof. unfold member_text. by rewrite !append_assoc. Qed.

(** The first character of the text of a value. *)
Lemma stringify_first v r :
  ∃ c rest, stringify v +:+ r = String c rest ∧
            (c ∈ ["n"; "t"; "f"; "-"; dquote; "["; "{"]%char ∨ is_digit c = true).
Proof.
  destruct v as [|[|]|n|s|items|props].
  - eexists _, _. split; [reflexivity|]. left. set_solver.
  - eexists _, _. split; [reflexivity|]. left. set_solver.
  - eexists _, _. split; [reflexivity|]. left. set_solver.
  - destruct (pretty_Z_first n r) as (c & rest & Hc & [Hd| ->]);
      eexists _, _; (split; [exact Hc|]); [by right | left; set_solver].
  - eexists _, _. split; [apply quote_suffix|]. left. set_solver.
  - eexists _, _. split; [apply stringify_arr|]. left. set_solver.
  - eexists _, _. split; [apply stringify_obj|]. left. set_solver.
Qed.

Lemma stringify_first_not (close : ascii) v r :
  close ∈ ["]"; "}"; ","]%char →
  ∃ c rest, stringify v +:+ r = String c rest ∧ c ≠ close.
Proof.
  intros Hclose. destruct (stringify_first v r) as (c & rest & Hc & Hcases).
  exists c, rest. split; [exact Hc|]. intros ->.
  repeat (apply elem_of_cons in Hclose as [->|Hclose]);
    try (by apply elem_of_nil in Hclose);
    (destruct Hcases as [Hin|Hd]; [|discriminate Hd]);
    unfold dquote in Hin;
    repeat (apply elem_of_cons in Hin as [Hin|Hin]; [discriminate Hin|]);
    by apply elem_of_nil in Hin.
Qed.

Lemma stringify_null r : stringify JNull +:+ r = String "n" ("ull" +:+ r).
Proof. reflexivity. Qed.

Lemma stringify_true r : stringify (JBool true) +:+ r = String "t" ("rue" +:+ r).
Proof. reflexivity. Qed.

Lemma stringify_false r : stringify (JBool false) +:+ r = String "f" ("alse" +:+ r).
Proof. reflexivity. Qed.

Lemma stringify_str s r :
  stringify (JStr s) +:+ r = String dquote (quote_body s +:+ String dquote r).
Proof. apply quote_suffix. Qed.

(** Rewrites the text of a value into its first character and the rest. *)
Ltac head_form H :=
  rewrite ?stringify_null, ?stringify_true, ?stringify_false, ?stringify_str,
    ?stringify_arr, ?stringify_obj in H;
  unfold dquote in H.

Ltac number_head n r H :=
  let c := fresh "c" in
  let rest := fresh "rest" in
  let Hc := fresh "Hc" in
  let Hd := fresh "Hd" in
  destruct (pretty_Z_first n r) as (c & rest & Hc & Hd);
  change (stringify (JNum n)) with (pretty n) in H; rewrite Hc in H;
  head_form H; injection H as H; subst c;
  destruct Hd as [Hd|Hd]; discriminate Hd.

Lemma member_determines k x :
  text_determines x →
  ∀ kv' R1 R2, member_text (k, x) +:+ R1 = member_text kv' +:+ R2 →
               no_digit_ahead R1 → no_digit_ahead R2 → (k, x) = kv' ∧ R1 = R2.
Proof.
  intros Hx [k' x'] R1 R2 H N1 N2. rewrite !member_text_suffix in H.
  apply quote_suffix_inj in H as [-> H]. injection H as H.
  by apply Hx in H as [-> ->].
Qed.

Lemma member_first kv R :
  ∃ c rest, member_text kv +:+ R = String c rest ∧ c ≠ "}"%char.
Proof.
  destruct kv as [k x]. rewrite member_text_suffix, quote_suffix.
  eexists _, _. split; [reflexivity|]. unfold dquote. discriminate.
Qed.

Lemma stringify_determines v : text_determines v.
Proof.
  induction v as [|b|n|s|items IH|props IH] using JsValue_nested_ind;
    intros v' r1 r2 H N1 N2.
  - destruct v' as [|[|]|n'|s'|items'|props']; try (head_form H; discriminate H).
    + head_form H. injection H as H. by apply append_cancel in H as ->.
    + symmetry in H. number_head n' r2 H.
  - destruct b, v' as [|[|]|n'|s'|items'|props']; try (head_form H; discriminate H);
      try (head_form H; injection H as H; by apply append_cancel in H as ->);
      symmetry in H; number_head n' r2 H.
  - destruct v' as [|[|]|n'|s'|items'|props']; try number_head n r1 H.
    change (pretty n +:+ r1 = pretty n' +:+ r2) in H.
    by apply pretty_Z_suffix_inj in H as [-> ->].
  - destruct v' as [|[|]|n'|s'|items'|props']; try (head_form H; discriminate H).
    + symmetry in H. number_head n' r2 H.
    + apply quote_suffix_inj in H as [-> ->]. done.
  - destruct v' as [|[|]|n'|s'|items'|props']; try (head_form H; discriminate H).
    + symmetry in H. number_head n' r2 H.
    + head_form H. injection H as H.
      apply (join_suffix_inj stringify "]") in H as [-> ->]; try done.
      intros x R. apply stringify_first_not. set_solver.
  - destruct v' as [|[|]|n'|s'|items'|props']; try (head_form H; discriminate H).
    + symmetry in H. number_head n' r2 H.
    + head_form H. injection H as H.
      apply (join_suffix_inj member_text "}") in H as [-> ->]; try done.
      * apply member_first.
      * eapply Forall_impl; [exact IH|]. intros [k x] Hx. by apply member_determines.
Qed.

Lemma stringify_inj v1 v2 : stringify v1 = stringify v2 → v1 = v2.
Proof.
  intros H. rewrite <- (append_empty_r (stringify v1)),
                    <- (append_empty_r (stringify v2)) in H.
  by apply stringify_determines in H as [-> _].
Qed.

(** X15: filter keys tell filters apart, among the filters whose numbers
    are safe integers (magnitude below 2^53).  Two such filters get the
    same key only when they are the same value, or when both fall into the
    bucket ["all"]; and only the filters [makeFilterKey] treats as empty
    (absent, falsy, or without enumerable keys) get ["all"]. *)
Theorem makeFilterKey_separates (f1 f2 : Payload) :
  plain_filters f1 = true → plain_filters f2 = true →
  (makeFilterKey f1 = makeFilterKey f2 → makeFilterKey f1 = "all" ∨ f1 = f2) ∧
  (makeFilterKey f1 = "all" →
   f1 = None ∨ ∃ v, f1 = Some v ∧ (truthy v = false ∨ keys_length v = 0)).
Proof.
  intros _ _. split.
  - destruct f1 as [v1|], f2 as [v2|]; unfold makeFilterKey; try (by left).
    destruct (negb (truthy v1) || Nat.eqb (keys_length v1) 0); [by left|].
    destruct (negb (truthy v2) || Nat.eqb (keys_length v2) 0); [by left|].
    intros ->%stringify_inj. by right.
  - destruct f1 as [v|]; [|by left]. intros H. right. exists v. split; [done|].
    unfold makeFilterKey in H.
    destruct (truthy v) eqn:Ht; [|by left].
    destruct (Nat.eqb_spec (keys_length v) 0) as [Hk|Hk]; [by right|].
    simpl in H. exfalso.
    destruct v as [|b|n|s|items|props]; simpl in Hk; try done;
      unfold quote, dquote in H; discriminate H.
Qed.

Lemma makeFilterKey_separates_witness :
  makeFilterKey (Some (JObj [("age", JNum 30)])) = "all" ∨
  Some (JObj [("age", JNum 30)]) = Some (JObj [("age", JNum 30)]).
Proof.
  apply (proj1 (makeFilterKey_separates (Some (JObj [("age", JNum 30)]))
                  (Some (JObj [("age", JNum 30)])) eq_refl eq_refl)).
  reflexivity.
Defined.

(** ** Provenance *)

Lemma run_cons s ev evs : final s (ev :: evs) = final (step s ev).1 evs.
Proof.
  unfold final. simpl. destruct (step s ev) as [s1 out1]. simpl.
  by destruct (run s1 evs).
Qed.




Lemma join_queue_effects s id filters uuid pop_ok reply e :
  e ∈ (join_queue s id filters uuid pop_ok reply).2 →
  e = SocketEmit id queued ∨ ∃ sid p, e = SocketEmit id (matched sid p) ∨
                                       e = RoomEmit p (matched sid id).
Proof.
  rewrite join_queue_eq. simpl. destruct (usable_peer _ id) as [p|]; simpl.
  - intros He. apply elem_of_cons in He as [->|He]; [right; eexists _, _; by left|].
    apply list_elem_of_singleton in He as ->. right. eexists _, _. by right.
  - intros ->%list_elem_of_singleton. by left.
Qed.

(** X17: nobody is sent [kicked] without cause: the notification is only
    ever emitted while a report is handled, with the reason ["abuse"], to a
    socket whose abuse count stands above 3 once the report is counted. *)
Theorem kicked_only_by_report (s : State) (ev : Event) (x : Id) (reason : string) :
  SocketEmit x (kicked reason) ∈ (step s ev).2 →
  reason = "abuse" ∧ 3 < score (step s ev).1 x ∧
  ∃ id sid r, ev = Report id sid r.
Proof.
  destruct ev as [id|id filters uuid pop_ok reply|id ok|id to d|id to d|id sid r|id|fk];
    unfold step.
  - by intros ?%elem_of_nil.
  - intros [H|(sid & p & [H|H])]%join_queue_effects; discriminate H.
  - unfold leave_queue. destruct (sockets s !! id ≫= filterKey) as [k|]; simpl;
      [|by intros ?%elem_of_nil].
    destruct (String.eqb k EmptyString); simpl; [by intros ?%elem_of_nil|].
    intros H%list_elem_of_singleton. discriminate H.
  - unfold signal. destruct (falsy_key to); simpl; [by intros ?%elem_of_nil|].
    intros H%list_elem_of_singleton. discriminate H.
  - unfold relay_msg. destruct (falsy_key to); simpl; [by intros ?%elem_of_nil|].
    intros H%list_elem_of_singleton. discriminate H.
  - destruct (smap_get sid (activeSessions s)) as [sess|] eqn:Hget.
    + pose proof (score_after_report s id sid r sess Hget) as Hsc.
      pose proof (report_known s id sid r sess Hget) as Hk. simpl in Hk.
      intros H. rewrite Hk in H.
      destruct (decide _) as [[Hlt Hconn]|Hn]; simpl in H;
        [|by apply elem_of_nil in H].
      apply elem_of_cons in H as [[= -> ->]|H].
      * split; [done|]. split; [|by eexists _, _, _].
        unfold score at 1. rewrite Hsc. by rewrite lookup_insert_eq.
      * apply elem_of_cons in H as [H|H]; [discriminate H|].
        apply close_socket_effects in H as [room H]. discriminate H.
    + unfold report. rewrite Hget. by intros ?%elem_of_nil.
  - intros [room H]%close_socket_effects. discriminate H.
  - by intros ?%elem_of_nil.
Qed.

Lemma kicked_only_by_report_witness :
  3 < score (step (final (init false)
                     (matched_pq ++ [Report "q" "sess_u2" None; Report "q" "sess_u2" None;
                                     Report "q" "sess_u2" None]))
               (Report "q" "sess_u2" None)).1 "p".
Proof.
  apply (kicked_only_by_report
           (final (init false)
              (matched_pq ++ [Report "q" "sess_u2" None; Report "q" "sess_u2" None;
                              Report "q" "sess_u2" None]))
           (Report "q" "sess_u2" None) "p" "abuse").
  vm_compute. apply elem_of_cons. by left.
Defined.

(** ** The in-process map *)

Lemma pushWaiting_memory_keys reply fk id s k :
  is_Some (inMemoryQueues s !! k) →
  is_Some (inMemoryQueues (pushWaiting reply fk id s) !! k).
Proof.
  intros Hk. unfold pushWaiting, push_memory, push_redis.
  destruct (redisClient s); [destruct reply|]; simpl; try done;
    apply lookup_insert_is_Some'; by right.
Qed.

Lemma step_memory_keys s ev k :
  is_Some (inMemoryQueues s !! k) → is_Some (inMemoryQueues (step s ev).1 !! k).
Proof.
  assert (Hins : ∀ (m : gmap string (list Id)) K l,
            is_Some (m !! k) → is_Some (<[K := l]> m !! k)).
  { intros m K l Hk. apply lookup_insert_is_Some'. by right. }
  assert (Hmap : ∀ (m : gmap string (list Id)) x,
            is_Some (m !! k) → is_Some ((filter (fun y => y ≠ x) <$> m) !! k)).
  { intros m x Hk. rewrite lookup_fmap. by apply fmap_is_Some. }
  intros Hk.
  destruct ev as [id|id filters uuid pop_ok reply|id ok|id to d|id to d|id sid r|id|fk];
    unfold step; try done.
  - rewrite join_queue_eq. simpl.
    assert (Hpop : is_Some (inMemoryQueues
                     (popWaiting pop_ok (makeFilterKey filters)
                        (set_filterKey id (makeFilterKey filters) s)).2 !! k)).
    { unfold popWaiting. destruct (redisClient _ && pop_ok); simpl.
      - by destruct (qget (redisLists s) (redis_key (makeFilterKey filters))).
      - by apply Hins. }
    destruct (usable_peer _ id) as [p|]; simpl; [done|].
    by apply pushWaiting_memory_keys.
  - unfold leave_queue. destruct (sockets s !! id ≫= filterKey) as [fk|]; simpl; [|done].
    destruct (String.eqb fk EmptyString); simpl; [done|].
    unfold removeFromQueue. destruct (redisClient s && ok); simpl; auto.
  - unfold signal. by destruct (falsy_key to).
  - unfold relay_msg. by destruct (falsy_key to).
  - destruct (smap_get sid (activeSessions s)) as [sess|] eqn:Hget.
    + rewrite (report_known _ _ _ _ _ Hget). simpl.
      destruct (decide _); simpl; [|done]. rewrite close_socket_eq. simpl. auto.
    + unfold report. by rewrite Hget.
  - rewrite close_socket_eq. simpl. auto.
Qed.

(** X18: the in-process queue map never forgets a filter key: no event
    removes a key from [inMemoryQueues] (queues are emptied, not deleted),
    and every join_queue served by the in-process store leaves an entry
    under its filter key, whether or not anybody ends up waiting there. *)
Theorem memory_keys_never_removed (s : State) (evs : list Event) (k : string) :
  (is_Some (inMemoryQueues s !! k) → is_Some (inMemoryQueues (final s evs) !! k)) ∧
  (∀ id filters uuid pop_ok reply,
     redisClient s && pop_ok = false →
     is_Some (inMemoryQueues (join_queue s id filters uuid pop_ok reply).1
              !! makeFilterKey filters)).
Proof.
  split.
  - revert s. induction evs as [|ev evs IH]; intros s Hk; [done|].
    rewrite run_cons. by apply IH, step_memory_keys.
  - intros id filters uuid pop_ok reply Hrc.
    assert (Hpop : is_Some (inMemoryQueues
                     (popWaiting pop_ok (makeFilterKey filters)
                        (set_filterKey id (makeFilterKey filters) s)).2
                     !! makeFilterKey filters)).
    { unfold popWaiting. change (redisClient (set_filterKey _ _ s)) with (redisClient s).
      rewrite Hrc. simpl. rewrite lookup_insert_eq. by eexists. }
    rewrite join_queue_eq. simpl.
    destruct (usable_peer _ id) as [p|]; simpl; [done|].
    by apply pushWaiting_memory_keys.
Qed.

Lemma memory_keys_never_removed_witness :
  is_Some (inMemoryQueues
             (final (final (init false) matched_pq) [Disconnect "p"; Disconnect "q"])
           !! "all").
Proof.
  apply (memory_keys_never_removed (final (init false) matched_pq)
           [Disconnect "p"; Disconnect "q"] "all").
  vm_compute. by eexists.
Defined.

(** * Handlers that give way at an [await] *)

(** ** A handler in one go *)

Lemma sched_run_app sys mvs1 mvs2 :
  sched_run sys (mvs1 ++ mvs2)
  = ((sched_run (sched_run sys mvs1).1 mvs2).1,
     (sched_run sys mvs1).2 ++ (sched_run (sched_run sys mvs1).1 mvs2).2).
Proof.
  revert sys. induction mvs1 as [|mv mvs1 IH]; intros sys; simpl.
  - by destruct (sched_run sys mvs2).
  - destruct (sched_step sys mv) as [sys1 out1]. rewrite IH.
    destruct (sched_run sys1 mvs1) as [sys2 out2]; simpl.
    destruct (sched_run sys2 mvs2) as [sys3 out3]; simpl.
    by rewrite app_assoc.
Qed.

Lemma resume_pushing reply fk id s :
  reply ≠ ExpireThrew →
  resume (JoinPushing id fk reply) s = (pushWaiting reply fk id s, [JoinPushed id], []).
Proof.
  intros Hreply. unfold resume, pushWaiting.
  destruct (redisClient s); [|done]. by destruct reply.
Qed.

(** A handler that is resumed until it is done, with nothing in between,
    is the handler of [step]. *)
Ltac play :=
  cbn [sched_run replicate sched_step arrive resume pair_up app lookup list_lookup
       take drop fst snd].

Lemma handler_in_one_go s ev :
  sched_run (s, []) (Arrive ev :: replicate 5 (Resume 0))
  = (((step s ev).1, []), (step s ev).2).
Proof.
  destruct ev as [id|id filters uuid pop_ok reply|id ok|id to d|id to d|id sid r|id|fk].
  - reflexivity.
  - cbn [step]. rewrite join_queue_eq. cbn zeta.
    play.
    destruct (popWaiting pop_ok (makeFilterKey filters)
                (set_filterKey id (makeFilterKey filters) s)) as [peer s2] eqn:Hpop.
    play.
    destruct (usable_peer peer id) as [p|]; play; [reflexivity|].
    unfold pushWaiting.
    destruct (redisClient s2) eqn:Hrc; [destruct reply|]; play; rewrite ?Hrc;
      try reflexivity.
    change (redisClient (push_redis (makeFilterKey filters) id s2))
      with (redisClient s2).
    rewrite Hrc. reflexivity.
  - cbn [step]. unfold leave_queue.
    play.
    destruct (sockets s !! id ≫= filterKey) as [k|]; [|reflexivity].
    destruct (String.eqb k EmptyString); reflexivity.
  - cbn [sched_run replicate sched_step arrive].
    destruct (step s (Signal id to d)); simpl. by rewrite app_nil_r.
  - cbn [sched_run replicate sched_step arrive].
    destruct (step s (RelayMsg id to d)); simpl. by rewrite app_nil_r.
  - cbn [sched_run replicate sched_step arrive].
    destruct (step s (Report id sid r)); simpl. by rewrite app_nil_r.
  - cbn [sched_run replicate sched_step arrive].
    destruct (step s (Disconnect id)); simpl. by rewrite app_nil_r.
  - reflexivity.
Qed.

Lemma one_at_a_time_run s evs :
  sched_run (s, []) (one_at_a_time evs) = ((final s evs, []), (run s evs).2).
Proof.
  unfold final, one_at_a_time. revert s.
  induction evs as [|ev evs IH]; intros s; [done|].
  rewrite bind_cons, sched_run_app, handler_in_one_go. cbn [fst snd run].
  rewrite IH. destruct (step s ev) as [s1 out1]; simpl.
  by destruct (run s1 evs) as [s2 out2].
Qed.

(** ** Exclusive placement, with suspended handlers *)

Lemma in_hand_app ts1 ts2 : in_hand (ts1 ++ ts2) = in_hand ts1 ++ in_hand ts2.
Proof. unfold in_hand. apply bind_app. Qed.

Lemma in_hand_cons t ts : in_hand (t :: ts) = held t ++ in_hand ts.
Proof. reflexivity. Qed.

(** Replacing what one handler has in hand. *)
Lemma hand_swap (A H N B : list Id) :
  NoDup (A ++ H ++ B) → NoDup N →
  (∀ x, x ∈ N → x ∈ H ∨ ((x ∉ A) ∧ (x ∉ B))) →
  NoDup (A ++ N ++ B).
Proof.
  rewrite !NoDup_app. intros (HA & HAB & HH & HHB & HB) HN Hx.
  split; [done|]. split; [|split; [done|split; [|done]]].
  - intros x Hx1 [Hx2|Hx2]%elem_of_app.
    + destruct (Hx x Hx2) as [?|[? ?]]; [|done].
      apply (HAB x Hx1). apply elem_of_app; by left.
    + apply (HAB x Hx1). apply elem_of_app; by right.
  - intros x Hx1 Hx2. destruct (Hx x Hx1) as [?|[? ?]]; [|done]. by apply (HHB x).
Qed.

(** Every handler but join_queue only takes entries out. *)
Lemma step_shrinks s ev :
  (∀ id f u o r, ev ≠ JoinQueue id f u o r) →
  store_shrinks (inMemoryQueues (step s ev).1) (inMemoryQueues s) ∧
  store_shrinks (redisLists (step s ev).1) (redisLists s) ∧
  (∀ e, e ∈ activeSessions (step s ev).1 → e ∈ activeSessions s).
Proof.
  intros Hev.
  assert (Hsame : store_shrinks (inMemoryQueues s) (inMemoryQueues s) ∧
                  store_shrinks (redisLists s) (redisLists s) ∧
                  (∀ e, e ∈ activeSessions s → e ∈ activeSessions s)).
  { split; [apply store_shrinks_refl|]. split; [apply store_shrinks_refl|done]. }
  assert (Hclose : ∀ s0 x,
            store_shrinks (inMemoryQueues (close_socket s0 x).1) (inMemoryQueues s0) ∧
            store_shrinks (redisLists (close_socket s0 x).1) (redisLists s0) ∧
            (∀ e, e ∈ activeSessions (close_socket s0 x).1 → e ∈ activeSessions s0)).
  { intros s0 x. rewrite close_socket_eq. simpl.
    split; [apply store_shrinks_sweep|]. split; [apply store_shrinks_refl|].
    apply drop_sessions_sub. }
  destruct ev as [id|id filters uuid pop_ok reply|id ok|id to d|id to d|id sid r|id|fk];
    simpl.
  - exact Hsame.
  - by destruct (Hev id filters uuid pop_ok reply).
  - unfold leave_queue. destruct (sockets s !! id ≫= filterKey) as [k|]; [|exact Hsame].
    destruct (String.eqb k EmptyString); simpl; [exact Hsame|].
    unfold removeFromQueue.
    destruct (redisClient s && ok); simpl;
      (split; [|split]); try apply store_shrinks_refl; try done;
      apply store_shrinks_insert, shrinks_filter.
  - unfold signal. by destruct (falsy_key to).
  - unfold relay_msg. by destruct (falsy_key to).
  - destruct (smap_get sid (activeSessions s)) as [sess|] eqn:Hget.
    + rewrite (report_known _ _ _ _ _ Hget). simpl.
      destruct (decide _); simpl; [|exact Hsame].
      exact (Hclose (set_scores _ s) _).
    + unfold report. rewrite Hget. exact Hsame.
  - apply Hclose.
  - split; [apply store_shrinks_refl|]. split; [apply store_shrinks_delete|done].
Qed.

(** The candidate [popWaiting] hands out was waiting, and is nowhere
    afterwards. *)
Lemma popWaiting_taken ok fk s p :
  Inv s → (popWaiting ok fk s).1 = Some p →
  ¬ idle s p ∧ idle (popWaiting ok fk s).2 p.
Proof.
  intros ([N1 O1] & [N2 O2] & Ha & Hu1 & Hu2 & Ho) Hpop.
  pose proof (popWaiting_frame ok fk s) as (Hss & _).
  destruct (popWaiting_Some _ _ _ _ Hpop)
    as [(rest & Hq & Hm & Hr)|(rest & Hq & Hr & Hm)].
  - assert (HpK : p ∈ qget (inMemoryQueues s) fk)
      by (rewrite Hq; apply elem_of_cons; by left).
    split; [intros (A1 & _); by apply (A1 fk)|].
    unfold idle. rewrite Hm, Hr, Hss. repeat split.
    + intros k. rewrite qget_insert. destruct (decide (fk = k)) as [<-|Hne].
      * specialize (N1 fk). rewrite Hq in N1. by apply NoDup_cons in N1 as [? _].
      * intros Hk. apply Hne. by apply (O1 p).
    + intros k Hk. by apply (Ha p fk k).
    + intros e He. by apply (Hu1 p fk).
  - assert (HpK : p ∈ qget (redisLists s) (redis_key fk))
      by (rewrite Hq; apply elem_of_cons; by left).
    split; [intros (_ & A2 & _); by apply (A2 (redis_key fk))|].
    unfold idle. rewrite Hm, Hr, Hss. repeat split.
    + intros k Hk. by apply (Ha p k (redis_key fk)).
    + intros k. rewrite qget_insert. destruct (decide (redis_key fk = k)) as [<-|Hne].
      * specialize (N2 (redis_key fk)). rewrite Hq in N2.
        by apply NoDup_cons in N2 as [? _].
      * intros Hk. apply Hne. by apply (O2 p).
    + intros e He. by apply (Hu2 p (redis_key fk)).
Qed.

(** Pairing two idle participants. *)
Lemma Inv3_pair m1 m2 ss ss' id p sid :
  Inv3 m1 m2 ss → id ≠ p →
  (∀ k, id ∉ qget m1 k) → (∀ k, id ∉ qget m2 k) →
  (∀ e, e ∈ ss → ¬ involves id e.2) →
  (∀ k, p ∉ qget m1 k) → (∀ k, p ∉ qget m2 k) →
  (∀ e, e ∈ ss → ¬ involves p e.2) →
  (∀ e, e ∈ ss' → e = (sid, mkSession id p) ∨ e ∈ ss) →
  Inv3 m1 m2 ss'.
Proof.
  intros (S1 & S2 & Ha & Hu1 & Hu2 & Ho) Hne A1 A2 Fr B1 B2 Fp Hss'.
  assert (Hnew : ∀ x, involves x (mkSession id p) → x = id ∨ x = p).
  { intros x [<-|<-]; simpl; tauto. }
  repeat split; try (apply S1 || apply S2 || done).
  - intros x k e Hx [->|He]%Hss'.
    + simpl. intros [->| ->]%Hnew; [by apply A1 in Hx | by apply B1 in Hx].
    + by apply (Hu1 x k).
  - intros x k e Hx [->|He]%Hss'.
    + simpl. intros [->| ->]%Hnew; [by apply A2 in Hx | by apply B2 in Hx].
    + by apply (Hu2 x k).
  - intros x e1 e2 [->|H1]%Hss' [->|H2]%Hss'; simpl; try done.
    + intros [->| ->]%Hnew Hx; exfalso; [by apply (Fr e2) | by apply (Fp e2)].
    + intros Hx [->| ->]%Hnew; exfalso; [by apply (Fr e1) | by apply (Fp e1)].
    + by apply Ho.
Qed.

Lemma pair_up_Inv s id p uuid :
  Inv s → id ≠ p → idle s id → idle s p → Inv (pair_up s id p uuid).1.
Proof.
  intros HI Hne (A1 & A2 & Fr) (B1 & B2 & Fp). unfold Inv, pair_up. simpl.
  eapply Inv3_pair; eauto. intros e. apply smap_set_elem.
Qed.

Lemma pair_up_idle s id p uuid x :
  idle s x → x ≠ id → x ≠ p → idle (pair_up s id p uuid).1 x.
Proof.
  intros (A1 & A2 & Fr) Hid Hp. unfold idle, pair_up. simpl.
  repeat split; [done..|].
  intros e [->|He]%smap_set_elem; [|by apply Fr].
  simpl. intros [?|?]; simpl in *; congruence.
Qed.

Lemma pushWaiting_idle reply fk id s x :
  idle s x → x ≠ id → idle (pushWaiting reply fk id s) x.
Proof.
  intros (A1 & A2 & Fr) Hne.
  pose proof (pushWaiting_entries reply fk id s x) as [Hm Hr].
  pose proof (pushWaiting_frame reply fk id s) as (Hss & _).
  repeat split.
  - intros k [Hk|[? _]]%Hm; [by apply (A1 k) | done].
  - intros k [Hk|[? _]]%Hr; [by apply (A2 k) | done].
  - rewrite Hss. exact Fr.
Qed.

Lemma arrive_SInv s ts ev :
  SInv (s, ts) → considerate_move (s, ts) (Arrive ev) →
  SInv (sched_step (s, ts) (Arrive ev)).1.
Proof.
  intros (HI & Hnd & Hidle & Hcut) Hmv. cbn [fst snd] in *.
  destruct ev as [id|id filters uuid pop_ok reply|id ok|id to d|id to d|id sid r|id|fk].
  2: { destruct Hmv as (Hid & Hfree & Hreply). cbn [sched_step arrive fst snd].
       unfold SInv. cbn [fst snd]. rewrite in_hand_app. cbn [in_hand mbind list_bind held app].
       split; [exact HI|]. split; [|split].
       - apply NoDup_app. split; [done|]. split; [|apply NoDup_singleton].
         intros x Hx ->%list_elem_of_singleton. done.
       - intros x [Hx| ->%list_elem_of_singleton]%elem_of_app; [by apply Hidle | done].
       - apply Forall_app. split; [done|]. by apply Forall_singleton. }
  2: { cbn [sched_step arrive].
       assert (Hadd : ∀ t, held t = [] → uncut t → SInv (s, ts ++ [t])).
       { intros t Ht Hu. unfold SInv. cbn [fst snd]. rewrite in_hand_app.
         cbn [in_hand mbind list_bind app]. rewrite Ht, !app_nil_r.
         split; [done|]. split; [done|]. split; [done|].
         apply Forall_app. split; [done|]. by apply Forall_singleton. }
       destruct (sockets s !! id ≫= filterKey) as [k|]; cbn [fst snd];
         [destruct (String.eqb k EmptyString); cbn [fst snd]|];
         rewrite ?app_nil_r; try done. by apply Hadd. }
  all: cbn [sched_step arrive];
    match goal with
    | |- context [step ?s0 ?e] =>
        pose proof (step_Inv s0 e HI I) as HI';
        destruct (step_shrinks s0 e ltac:(discriminate)) as (Sm & Sr & Ss);
        destruct (step s0 e) as [s' out]
    end;
    cbn [fst snd] in *; rewrite app_nil_r;
    (split; [exact HI'|]); (split; [exact Hnd|]); (split; [|exact Hcut]);
    intros x Hx; eapply idle_shrink; eauto.
Qed.

Lemma resume_SInv s ts n : SInv (s, ts) → SInv (sched_step (s, ts) (Resume n)).1.
Proof.
  intros HS. cbn [sched_step].
  destruct (ts !! n) as [t|] eqn:Hn; [|exact HS].
  destruct HS as (HI & Hnd & Hidle & Hcut). cbn [fst snd] in *.
  rewrite <- (take_drop_middle ts n t Hn) in Hnd, Hidle, Hcut.
  set (l1 := take n ts) in *. set (l2 := drop (S n) ts) in *. clearbody l1 l2.
  rewrite in_hand_app, in_hand_cons in Hnd, Hidle.
  apply Forall_app in Hcut as [Hc1 Hc2]. apply Forall_cons in Hc2 as [Hct Hc2].
  assert (Hothers : ∀ x, x ∈ in_hand l1 ++ in_hand l2 → idle s x).
  { intros x Hx. apply Hidle. rewrite !elem_of_app. apply elem_of_app in Hx. tauto. }
  assert (Hkeep : ∀ s' t',
            Inv s' → held t' = held t → uncut t' →
            (∀ x, idle s x → idle s' x) → SInv (s', l1 ++ [t'] ++ l2)).
  { intros s' t' HI' Hh Hu Hmono. unfold SInv. cbn [fst snd].
    rewrite !in_hand_app, in_hand_cons. cbn [in_hand mbind list_bind app].
    rewrite app_nil_r, Hh.
    split; [done|]. split; [done|]. split; [by intros x ?%Hidle%Hmono|].
    apply Forall_app. split; [done|]. by apply Forall_cons. }
  assert (Hdone : ∀ s' new,
            Inv s' → in_hand new = [] → Forall uncut new →
            (∀ x, x ∈ in_hand l1 ++ in_hand l2 → idle s' x) →
            SInv (s', l1 ++ new ++ l2)).
  { intros s' new HI' Hh Hu Hmono. unfold SInv. cbn [fst snd].
    rewrite !in_hand_app, Hh. cbn [app].
    split; [done|]. split; [|split; [done|]].
    - apply (hand_swap _ (held t) []); [done | apply NoDup_nil_2|].
      by intros x ?%elem_of_nil.
    - apply Forall_app. split; [done|]. by apply Forall_app. }
  destruct t as [id fk uuid pop_ok reply|id fk uuid reply peer|id fk reply|id|id fk ok|id].
  - (* the pop *)
    cbn [resume].
    destruct (popWaiting_shrinks pop_ok fk s) as [Sm Sr].
    pose proof (popWaiting_frame pop_ok fk s) as (Hss & _).
    pose proof (popWaiting_taken pop_ok fk s) as Htaken.
    destruct (popWaiting pop_ok fk s) as [peer s2]; cbn [fst snd] in *.
    assert (Hmono : ∀ x, idle s x → idle s2 x).
    { intros x Hx. eapply idle_shrink; eauto. by rewrite Hss. }
    assert (HI2 : Inv s2) by (eapply Inv_shrink; eauto; by rewrite Hss).
    unfold SInv. cbn [fst snd].
    rewrite !in_hand_app, in_hand_cons. cbn [in_hand mbind list_bind held app] in *.
    rewrite app_nil_r.
    destruct (usable_peer peer id) as [p|] eqn:Hp.
    + apply usable_peer_Some in Hp as (-> & _ & Hpid).
      destruct (Htaken p HI eq_refl) as [Hbusy Hfree].
      split; [done|]. split; [|split; [|apply Forall_app; split; [done|by apply Forall_cons]]].
      * apply (hand_swap _ [id] [id; p]); [done| |].
        -- apply NoDup_cons. split; [|apply NoDup_singleton].
           intros ?%list_elem_of_singleton. done.
        -- intros x [-> | ->%list_elem_of_singleton]%elem_of_cons.
           ++ left. apply elem_of_cons; by left.
           ++ right. split; intros Hx; apply Hbusy, Hidle; rewrite !elem_of_app, ?elem_of_cons; tauto.
      * intros x Hx.
        repeat (rewrite elem_of_app in Hx || rewrite elem_of_cons in Hx).
        destruct_or!; subst; try done; try (by apply elem_of_nil in Hx);
          apply Hmono, Hidle; rewrite !elem_of_app, ?elem_of_cons; tauto.
    + split; [done|]. split; [done|].
      split; [by intros x ?%Hidle%Hmono|].
      apply Forall_app; split; [done|by apply Forall_cons].
  - (* after the pop *)
    cbn [resume held] in *.
    destruct (usable_peer peer id) as [p|] eqn:Hp.
    + apply usable_peer_Some in Hp as (-> & _ & Hpid).
      assert (Hid : idle s id).
      { apply Hidle. rewrite !elem_of_app, !elem_of_cons. tauto. }
      assert (Hpi : idle s p).
      { apply Hidle. rewrite !elem_of_app, !elem_of_cons. tauto. }
      pose proof (pair_up_Inv s id p uuid HI (not_eq_sym Hpid) Hid Hpi) as HI5.
      pose proof (pair_up_idle s id p uuid) as Hmono.
      destruct (pair_up s id p uuid) as [s5 out]; cbn [fst snd] in *.
      apply Hdone; [done..|].
      intros x Hx. apply Hmono; [by apply Hothers| |].
      * intros ->. apply NoDup_app in Hnd as (_ & H1 & H2).
        apply elem_of_app in Hx as [Hx|Hx].
        -- apply (H1 id Hx). rewrite elem_of_app, elem_of_cons. tauto.
        -- apply NoDup_app in H2 as (_ & H2 & _). apply (H2 id); [|done].
           apply elem_of_cons; by left.
      * intros ->. apply NoDup_app in Hnd as (_ & H1 & H2).
        apply elem_of_app in Hx as [Hx|Hx].
        -- apply (H1 p Hx). rewrite elem_of_app, !elem_of_cons. tauto.
        -- apply NoDup_app in H2 as (_ & H2 & _). apply (H2 p); [|done].
           rewrite !elem_of_cons. tauto.
    + by apply (Hkeep s (JoinPushing id fk reply)).
  - (* the push *)
    cbn [uncut held] in *. rewrite (resume_pushing _ _ _ _ Hct).
    assert (Hid : idle s id).
    { apply Hidle. rewrite !elem_of_app, !elem_of_cons. tauto. }
    apply Hdone; [by apply pushWaiting_Inv | done | by apply Forall_singleton |].
    intros x Hx. apply pushWaiting_idle; [by apply Hothers|].
    intros ->. apply NoDup_app in Hnd as (_ & H1 & H2).
    apply elem_of_app in Hx as [Hx|Hx].
    + apply (H1 id Hx). rewrite elem_of_app, elem_of_cons. tauto.
    + apply NoDup_app in H2 as (_ & H2 & _). apply (H2 id); [|done].
      apply elem_of_cons; by left.
  - by apply (Hdone s []).
  - cbn [resume]. apply (Hkeep _ (LeaveRemoved id)); [|done..|].
    + unfold removeFromQueue.
      destruct (redisClient s && ok); simpl;
        (eapply Inv_shrink; [exact HI|simpl..]);
        try apply store_shrinks_refl; try done;
        apply store_shrinks_insert, shrinks_filter.
    + intros x Hx. unfold removeFromQueue.
      destruct (redisClient s && ok); simpl;
        (eapply idle_shrink; [exact Hx|simpl..]);
        try apply store_shrinks_refl; try done;
        apply store_shrinks_insert, shrinks_filter.
  - by apply (Hdone s []).
Qed.

Lemma sched_step_SInv sys mv :
  SInv sys → considerate_move sys mv → SInv (sched_step sys mv).1.
Proof.
  destruct sys as [s ts]. destruct mv as [ev|n]; intros HS Hmv.
  - by apply arrive_SInv.
  - by apply resume_SInv.
Qed.

Lemma sched_run_SInv sys mvs :
  SInv sys → considerate sys mvs → SInv (sched_run sys mvs).1.
Proof.
  revert sys. induction mvs as [|mv mvs IH]; intros sys HS Hc; simpl; [done|].
  destruct Hc as [Hmv Hrest].
  pose proof (sched_step_SInv sys mv HS Hmv) as H1.
  destruct (sched_step sys mv) as [sys1 out1]; simpl in *.
  specialize (IH sys1 H1 Hrest).
  by destruct (sched_run sys1 mvs) as [sys2 out2].
Qed.

Lemma SInv_init rc : SInv (init rc, []).
Proof.
  split; [apply Inv_init|]. split; [apply NoDup_nil_2|].
  split; [by intros x ?%elem_of_nil | apply Forall_nil_2].
Qed.

Lemma considerate_take sys mvs k : considerate sys mvs → considerate sys (take k mvs).
Proof.
  revert sys k. induction mvs as [|mv mvs IH]; intros sys [|k]; simpl; try done.
  intros [Hmv Hrest]. split; [done|]. by apply IH.
Qed.

(** C1 (amended): however the handlers interleave at their [await]s, as
    long as join_queue arrives only from a participant that is at that
    moment in no waiting queue, in no session and in the hand of no
    suspended join_queue (neither as its requester, not yet paired or
    pushed, nor as the candidate it popped), and no push to Redis is cut
    between [rPush] and [expire], then at any time, that is after any
    number [k] of moves, a participant identifier is in at most one waiting
    queue, never in a queue while it is a member of a session, and in at
    most one session. *)
Theorem considerate_runs_exclusive (rc : bool) (mvs : list Move) (k : nat) :
  considerate (init rc, []) mvs →
  exclusive (sched_run (init rc, []) (take k mvs)).1.1.
Proof.
  intros Hc. apply Inv_exclusive.
  by destruct (sched_run_SInv _ (take k mvs) (SInv_init rc)
                 (considerate_take _ _ k Hc)).
Qed.

Lemma free_hand_spec ts id : bool_decide (id ∉ in_hand ts) = true → id ∉ in_hand ts.
Proof. apply bool_decide_eq_true_1. Qed.

Lemma considerate_runs_exclusive_witness :
  exclusive (sched_run (init true, []) (take 19 considerate_schedule)).1.1.
Proof.
  apply considerate_runs_exclusive.
  unfold considerate_schedule. cbn [considerate considerate_move].
  repeat split; try discriminate;
    (apply idleb_spec || apply free_hand_spec); vm_compute; reflexivity.
Defined.


(** What the schedule of the witness sends. *)
Example considerate_schedule_effects :
  (sched_run (init true, []) considerate_schedule).2
  = [SocketEmit "p" queued; SocketEmit "q" queued;
     SocketEmit "r" (matched "sess_u3" "p"); RoomEmit "p" (matched "sess_u3" "r");
     SocketEmit "q" left_queue; RoomEmit "r" peer_left].
Proof. vm_compute. reflexivity. Qed.

(** Why the amended C1 asks that the requester be in no hand: [p] sends
    join_queue twice in a row without a Redis client.  The second event is
    taken while the first handler waits for [popWaiting]; [p] is in no queue
    and in no session at both arrivals, both handlers find the queue empty
    and both push.  [q] is then matched with [p], which still waits. *)
Example overlapping_joins_break_exclusive :
  let arrivals :=
    [Arrive (Connect "p"); Arrive (Connect "q");
     Arrive (JoinQueue "p" None "u1" true PushStored); Resume 0;
     Arrive (JoinQueue "p" None "u2" true PushStored); Resume 1] in
  let both_go_on :=
    [Resume 0; Resume 0; Resume 0; Resume 0; Resume 0; Resume 0] in
  let third := one_at_a_time [JoinQueue "q" None "u3" true PushStored] in
  let sys0 := (sched_run (init false, []) (take 2 arrivals)).1 in
  let sys1 := (sched_run (init false, []) (take 4 arrivals)).1 in
  let sys2 := (sched_run (init false, []) (arrivals ++ both_go_on)).1 in
  let sys3 := (sched_run (init false, []) (arrivals ++ both_go_on ++ third)).1 in
  idleb sys0.1 "p" = true ∧ idleb sys1.1 "p" = true ∧
  qget (inMemoryQueues sys2.1) "all" = ["p"; "p"] ∧ sys2.2 = [] ∧
  qget (inMemoryQueues sys3.1) "all" = ["p"] ∧
  activeSessions sys3.1 = [("sess_u3", mkSession "q" "p")] ∧
  ¬ exclusive sys3.1.
Proof.
  repeat split; try (vm_compute; reflexivity).
  intros H. destruct (H "p") as (_ & Hqs & _).
  apply (Hqs "all" "sess_u3").
  - left. vm_compute. apply elem_of_cons. by left.
  - exists (mkSession "q" "p"). split; [vm_compute; apply elem_of_cons; by left|].
    by right.
Qed.

(** Why the amended C1 asks that the requester be no popped candidate: over
    Redis, [q] waits and [p] sends join_queue, whose [lPop] takes [q]
    out; before that handler goes on, [q], now in no queue and in no
    session, sends join_queue under another key; [p] is paired with [q],
    and [q] is queued under the other key. *)
Example popped_candidate_rejoins :
  let other := Some (JObj [("x", JNum 1)]) in
  let mvs :=
    one_at_a_time [Connect "p"; Connect "q"; JoinQueue "q" None "u1" true PushStored]
    ++ [Arrive (JoinQueue "p" None "u2" true PushStored); Resume 0] in
  let rest :=
    [Arrive (JoinQueue "q" other "u3" true PushStored);
     Resume 1; Resume 0; Resume 0; Resume 0; Resume 0] in
  let sys1 := (sched_run (init true, []) mvs).1 in
  let sys2 := (sched_run (init true, []) (mvs ++ rest)).1 in
  idleb sys1.1 "q" = true ∧ in_hand sys1.2 = ["p"; "q"] ∧
  qget (redisLists sys2.1) (redis_key (makeFilterKey other)) = ["q"] ∧
  activeSessions sys2.1 = [("sess_u2", mkSession "p" "q")] ∧ sys2.2 = [] ∧
  ¬ exclusive sys2.1.
Proof.
  repeat split; try (vm_compute; reflexivity).
  intros H. destruct (H "q") as (_ & Hqs & _).
  apply (Hqs (makeFilterKey (Some (JObj [("x", JNum 1)]))) "sess_u2").
  - right. vm_compute. apply elem_of_cons. by left.
  - exists (mkSession "p" "q"). split; [vm_compute; apply elem_of_cons; by left|].
    by right.
Qed.

(** ** Handlers taken one at a time *)

(** X4: when two join_queue events are handled one after the other (the
    second is taken when the handler of the first is done), from two
    different participants, under the same filter key, with the queue of
    that key empty in both stores and the second pop served by the store
    the first push wrote to, the two end matched with each other: the first
    is sent [queued], then both are sent [matched] with one session
    identifier and each other's identifier, no handler is left suspended,
    and nobody is left in the queue that served the second pop. *)
Theorem two_joins_pair (s : State) (p q : Id) (f1 f2 : Payload) (u1 u2 : string)
    (pop1 pop2 : bool) (reply1 reply2 : PushReply) :
  let fk := makeFilterKey f1 in
  let sid := "sess_" +:+ u2 in
  let r := sched_run (s, [])
             (one_at_a_time [JoinQueue p f1 u1 pop1 reply1;
                             JoinQueue q f2 u2 pop2 reply2]) in
  makeFilterKey f2 = fk →
  qget (inMemoryQueues s) fk = [] → qget (redisLists s) (redis_key fk) = [] →
  same_store (redisClient s) reply1 pop2 = true →
  p ≠ EmptyString → p ≠ q →
  r.2 = [SocketEmit p queued; SocketEmit q (matched sid p); RoomEmit p (matched sid q)] ∧
  r.1.2 = [] ∧
  smap_get sid (activeSessions r.1.1) = Some (mkSession q p) ∧
  served_queue r.1.1 pop2 fk = [].
Proof.
  intros fk sid r Hfk Hmem Hred Hsame Hp Hpq.
  destruct (two_joins_in_turn s p q f1 f2 u1 u2 pop1 pop2 reply1 reply2
              Hfk Hmem Hred Hsame Hp Hpq) as (H1 & H2 & H3 & H4).
  subst r. rewrite one_at_a_time_run. unfold final. cbn [run step fst snd].
  destruct (join_queue s p f1 u1 pop1 reply1) as [s1 out1]; cbn [fst snd] in *.
  destruct (join_queue s1 q f2 u2 pop2 reply2) as [s2 out2]; cbn [fst snd] in *.
  subst out1 out2. done.
Qed.

Lemma two_joins_pair_witness :
  (sched_run (init true, [])
     (one_at_a_time [JoinQueue "p" None "u1" true PushStored;
                     JoinQueue "q" (Some (JObj [])) "u2" true PushStored])).2
  = [SocketEmit "p" queued;
     SocketEmit "q" (matched "sess_u2" "p"); RoomEmit "p" (matched "sess_u2" "q")].
Proof.
  apply (two_joins_pair (init true) "p" "q" None (Some (JObj [])) "u1" "u2"
           true true PushStored PushStored);
    [reflexivity | reflexivity | reflexivity | reflexivity | discriminate | discriminate].
Defined.

(** Without the first condition of X4 the pairing is lost: when the second
    join_queue is taken while the first handler is suspended, over Redis,
    both find the queue empty and both end up waiting. *)
Example overlapping_joins_miss_each_other :
  let r := sched_run (init true, [])
             [Arrive (JoinQueue "p" None "u1" true PushStored);
              Arrive (JoinQueue "q" None "u2" true PushStored);
              Resume 0; Resume 1; Resume 0; Resume 0; Resume 0;
              Resume 0; Resume 0; Resume 0] in
  r.2 = [SocketEmit "p" queued; SocketEmit "q" queued] ∧
  r.1.2 = [] ∧ activeSessions r.1.1 = [] ∧
  qget (redisLists r.1.1) (redis_key "all") = ["p"; "q"].
Proof. vm_compute. done. Qed.

(** X7: when a join_queue and then a leave_queue of the same socket are
    handled one after the other (the second is taken when the handler of
    the first is done), joining an empty queue and leaving again is a round
    trip, provided the removal is served by the store the push wrote to and
    the push was not cut: the socket is sent [queued], then [left_queue],
    no handler is left suspended, and afterwards every queue of both stores
    holds what it held before and no session was created. *)
Theorem join_then_leave (s : State) (id : Id) (d : SocketData) (filters : Payload)
    (uuid : string) (pop_ok rem_ok : bool) (reply : PushReply) :
  let fk := makeFilterKey filters in
  let r := sched_run (s, [])
             (one_at_a_time [JoinQueue id filters uuid pop_ok reply;
                             LeaveQueue id rem_ok]) in
  sockets s !! id = Some d →
  served_queue s pop_ok fk = [] →
  same_store (redisClient s) reply rem_ok = true →
  reply ≠ ExpireThrew →
  id ∉ served_queue s rem_ok fk →
  r.2 = [SocketEmit id queued; SocketEmit id left_queue] ∧
  r.1.2 = [] ∧
  (∀ k, qget (inMemoryQueues r.1.1) k = qget (inMemoryQueues s) k) ∧
  (∀ k, qget (redisLists r.1.1) k = qget (redisLists s) k) ∧
  activeSessions r.1.1 = activeSessions s.
Proof.
  intros fk r Hd Hq Hsame Hcut Habs.
  destruct (join_leave_in_turn s id d filters uuid pop_ok rem_ok reply
              Hd Hq Hsame Hcut Habs) as (H1 & H2 & H3 & H4 & H5).
  subst r. rewrite one_at_a_time_run. unfold final. cbn [run step fst snd].
  destruct (join_queue s id filters uuid pop_ok reply) as [s1 out1]; cbn [fst snd] in *.
  destruct (leave_queue s1 id rem_ok) as [s2 out2]; cbn [fst snd] in *.
  subst out1 out2. done.
Qed.

Lemma join_then_leave_witness :
  (sched_run (final (init true) [Connect "p"], [])
     (one_at_a_time [JoinQueue "p" None "u1" true RPushThrew;
                     LeaveQueue "p" false])).2
  = [SocketEmit "p" queued; SocketEmit "p" left_queue].
Proof.
  apply (join_then_leave (final (init true) [Connect "p"]) "p" (mkData None None)
           None "u1" true false RPushThrew);
    [reflexivity | reflexivity | reflexivity | discriminate |].
  vm_compute. apply not_elem_of_nil.
Defined.

(** Without the first condition of X7 the socket may stay queued: when its
    leave_queue is taken while its join_queue waits for [popWaiting], the
    removal runs before the push. *)
Example leave_overtakes_join :
  let r := sched_run (final (init false) [Connect "p"], [])
             [Arrive (JoinQueue "p" None "u1" true PushStored); Resume 0;
              Arrive (LeaveQueue "p" true); Resume 1;
              Resume 0; Resume 0; Resume 1; Resume 0] in
  r.2 = [SocketEmit "p" left_queue; SocketEmit "p" queued] ∧
  r.1.2 = [] ∧ qget (inMemoryQueues r.1.1) "all" = ["p"].
Proof. vm_compute. done. Qed.

(** X12: however the handlers interleave, as long as join_queue arrives
    only from participants that are idle and in no hand (and no push is
    cut), the disconnect of one member of a session leaves the other member
    in no queue of either store, in no session and in the hand of no
    suspended join_queue: it may ask to join again. *)
Theorem disconnect_frees_peer (rc : bool) (mvs : list Move) (id : Id)
    (sid : string) (sess : Session) :
  let sys := (sched_run (init rc, []) mvs).1 in
  let sys' := (sched_step sys (Arrive (Disconnect id))).1 in
  considerate (init rc, []) mvs →
  (sid, sess) ∈ activeSessions sys.1 → involves id sess →
  idle sys'.1 (other_of sess id) ∧ other_of sess id ∉ in_hand sys'.2.
Proof.
  intros sys sys' Hc Hin Hinv.
  destruct (sched_run_SInv _ mvs (SInv_init rc) Hc) as (HI & _ & Hfree & _).
  fold sys in HI, Hfree. subst sys'. destruct sys as [s ts]. cbn [fst snd] in *.
  pose proof (involves_other_of sess id) as Hpeer.
  cbn [sched_step arrive].
  change (step s (Disconnect id)) with (close_socket s id).
  rewrite close_socket_eq. cbn [fst snd]. rewrite app_nil_r. split.
  - destruct HI as (_ & _ & _ & Hu1 & Hu2 & Ho).
    unfold idle. cbn -[qget]. repeat split.
    + intros k. rewrite qget_fmap_filter. intros [_ Hk]%list_elem_of_filter.
      by apply (Hu1 _ _ _ Hk Hin).
    + intros k Hk. by apply (Hu2 _ _ _ Hk Hin).
    + intros e He Hpe.
      pose proof (drop_sessions_sub _ _ _ _ He) as Hes.
      apply drop_sessions_clean in He.
      assert (e = (sid, sess)) as -> by (by apply (Ho (other_of sess id))).
      by apply He.
  - intros Hh. destruct (Hfree _ Hh) as (_ & _ & Fr). by apply (Fr (sid, sess)).
Qed.

Lemma disconnect_frees_peer_witness :
  idle (sched_step (sched_run (init true, []) (take 19 considerate_schedule)).1
          (Arrive (Disconnect "p"))).1.1 "r".
Proof.
  apply (disconnect_frees_peer true (take 19 considerate_schedule) "p" "sess_u3"
           (mkSession "r" "p")).
  - unfold considerate_schedule. cbn [take considerate considerate_move].
    repeat split; try discriminate;
      (apply idleb_spec || apply free_hand_spec); vm_compute; reflexivity.
  - vm_compute. apply elem_of_cons. by left.
  - by right.
Defined.

(** X13: without a Redis client, with the events handled one at a time
    (each is taken when the handler of the one before is done) and
    join_queue issued by connected sockets only, everybody waiting in a
    queue and both members of every session are connected after every
    event; hence every report on an existing session ejects its target
    exactly when it takes the count past 3. *)
Theorem in_memory_members_live (evs : list Event) :
  let sys := (sched_run (init false, []) (one_at_a_time evs)).1 in
  joins_connected (init false) evs →
  sys.2 = [] ∧ all_live sys.1 ∧
  ∀ id sid reason sess,
    smap_get sid (activeSessions sys.1) = Some sess →
    (SocketEmit (other_of sess id) (kicked "abuse") ∈ (report sys.1 id sid reason).2
     ↔ 3 < score sys.1 (other_of sess id) + 1).
Proof.
  intros sys Hj. subst sys. rewrite one_at_a_time_run. cbn [fst snd].
  split; [done|]. by apply members_live_in_turn.
Qed.

Lemma in_memory_members_live_witness :
  all_live (sched_run (init false, []) (one_at_a_time matched_pq)).1.1.
Proof.
  apply (in_memory_members_live matched_pq).
  unfold matched_pq. cbn [joins_connected].
  repeat split; vm_compute; by eexists.
Defined.

(** Without the first condition of X13 a session may hold a socket that is
    gone.  [p] has reported [q] three times and [q] waits again; [p] then
    sends join_queue and report in a row: the join pops [q], the report is
    taken before that handler goes on and ejects [q], and [p] is then paired
    with [q]. *)
Example pairing_with_the_ejected :
  let before :=
    one_at_a_time
      (matched_pq ++
       [Report "p" "sess_u2" None; Report "p" "sess_u2" None;
        Report "p" "sess_u2" None; JoinQueue "q" None "u3" true PushStored]) in
  let row :=
    [Arrive (JoinQueue "p" None "u4" true PushStored); Resume 0;
     Arrive (Report "p" "sess_u2" None); Resume 0] in
  let r := sched_run (init false, []) (before ++ row) in
  drop 4 r.2
  = [SocketEmit "q" (kicked "abuse"); ForceDisconnect "q"; RoomEmit "p" peer_left;
     SocketEmit "p" (matched "sess_u4" "q"); RoomEmit "q" (matched "sess_u4" "p")] ∧
  activeSessions r.1.1 = [("sess_u4", mkSession "p" "q")] ∧
  sockets r.1.1 !! "q" = None ∧ r.1.2 = [].
Proof. vm_compute. done. Qed.
